(** * PromiseQueue and PromisePool (22_Promises.js, section 6)

    A shallow embedding of the two scheduling classes of the promises guide.

    JavaScript runs every piece of code between two suspension points to
    completion, so each class is modelled as a transition system whose
    transitions are exactly those pieces: a method call made by user code,
    and the continuation of a method activation that was suspended at an
    [await].  The state of a class instance is the object's fields together
    with the activations that are currently suspended, and two logs that only
    record what happened (which operations were called, and which
    resolve / reject calls were made on the promises handed to callers). *)

From Stdlib Require Import List ZArith Lia Bool Arith String.
Import ListNotations.

Set Implicit Arguments.

(** ** Values, outcomes, operations *)

(** JavaScript values that tasks produce or throw. *)
Inductive value : Type :=
| VUndefined
| VNumber (z : Z)
| VString (s : string).

(** How a promise ends up. *)
Inductive outcome : Type :=
| Fulfilled (v : value)
| Rejected (e : value).

(** A completion record of a synchronous call: it returns or it throws. *)
Inductive completion (A : Type) : Type :=
| Normal (a : A)
| Throw (e : value).
Arguments Throw {A} e.

(** What calling [promiseFunc()] does.  Either the call itself throws
    (a plain function that raises before returning), or it returns something
    that is awaited: a promise, which stays pending until it settles with
    [o] (a plain value [v] behaves as a promise fulfilled with [v]).
    When the awaited promise settles is decided by the environment. *)
Inductive operation : Type :=
| SyncThrow (e : value)
| Async (o : outcome).

(** The outcome a caller of the operation observes. *)
Definition result_of (f : operation) : outcome :=
  match f with
  | SyncThrow e => Rejected e
  | Async o => o
  end.

Definition is_async (f : operation) : bool :=
  match f with
  | Async _ => true
  | SyncThrow _ => false
  end.

(** Removal of the first element carrying a given key from a list of
    suspended activations. *)
Fixpoint extract {A : Type} (k : nat) (l : list (nat * A)) : option (A * list (nat * A)) :=
  match l with
  | [] => None
  | (k', a) :: r =>
      if Nat.eqb k k' then Some (a, r)
      else match extract k r with
           | Some (b, r') => Some (b, (k', a) :: r')
           | None => None
           end
  end.

(** The state of the promise with identity [h], read from a log of
    resolve / reject calls: the first call wins, no call means pending. *)
Fixpoint handle_state (h : nat) (log : list (nat * outcome)) : option outcome :=
  match log with
  | [] => None
  | (h', o) :: r => if Nat.eqb h h' then Some o else handle_state h r
  end.

(** Number of elements of a list that carry the key [k]. *)
Fixpoint occ {A : Type} (k : nat) (l : list (nat * A)) : nat :=
  match l with
  | [] => 0
  | (k', _) :: r => (if Nat.eqb k k' then 1 else 0) + occ k r
  end.

(** Number of resolve / reject calls made on the promise [h]. *)
Definition settle_count (h : nat) (log : list (nat * outcome)) : nat :=
  occ h log.

(** ** 6.1 PromiseQueue *)

Module PromiseQueue.

(** An element of [this.queue]: the object [{ promiseFunc, resolve, reject }].
    [resolve] and [reject] are the two resolving functions of the promise
    that [enqueue] returns; they are represented by the identity of that
    promise. *)
Record entry : Type := Entry {
  promiseFunc : operation;
  resolvers : nat
}.

Record t : Type := Make {
  queue : list entry;                (* this.queue *)
  processing : bool;                 (* this.processing *)
  awaiting : list (nat * outcome);   (* processQueue activations suspended at
                                        [await promiseFunc()]: whose entry, and
                                        how the awaited promise will settle *)
  promises : nat;                    (* promises returned by enqueue so far *)
  started : list entry;              (* log: entries whose promiseFunc was called *)
  settled : list (nat * outcome)     (* log: resolve / reject calls *)
}.

(** [constructor()]: empty queue, not processing. *)
Definition constructor : t := Make [] false [] 0 [] [].

(** The [while (this.queue.length > 0)] loop of [processQueue], from the
    loop test up to the next suspension or to the end of the method.  [q] is
    [this.queue], [p] the current value of [this.processing]. *)
Fixpoint while_loop (q : list entry) (p : bool) (aw : list (nat * outcome))
    (np : nat) (st : list entry) (se : list (nat * outcome)) : t :=
  match q with
  | [] =>
      (* loop exit: this.processing = false *)
      Make [] false aw np st se
  | e :: q' =>
      (* this.queue.shift(), then promiseFunc() inside try *)
      match promiseFunc e with
      | SyncThrow err =>
          (* catch (error) { reject(error) }, next iteration *)
          while_loop q' p aw np (st ++ [e]) (se ++ [(resolvers e, Rejected err)])
      | Async o =>
          (* suspended at await *)
          Make q' p (aw ++ [(resolvers e, o)]) np (st ++ [e]) se
      end
  end.

(** [processQueue()], up to its first suspension. *)
Definition processQueue (s : t) : t :=
  if processing s then s
  else while_loop (queue s) true (awaiting s) (promises s) (started s) (settled s).

(** The executor's first statement: [this.queue.push({...})]. *)
Definition push (f : operation) (s : t) : t :=
  Make (queue s ++ [Entry f (promises s)]) (processing s) (awaiting s)
       (S (promises s)) (started s) (settled s).

(** [enqueue(promiseFunc)]: the new promise, and the state after the
    executor ran. *)
Definition enqueue (f : operation) (s : t) : nat * t :=
  (promises s, processQueue (push f s)).

(** The continuation of the activation that awaits the operation of entry
    [h], run when the awaited promise has settled: [resolve(result)] or
    [reject(error)], then back to the loop test. *)
Definition settle (h : nat) (s : t) : t :=
  match extract h (awaiting s) with
  | None => s
  | Some (o, aw') =>
      while_loop (queue s) (processing s) aw' (promises s) (started s)
                 (settled s ++ [(h, o)])
  end.

(** What can happen to a queue: user code calls [enqueue], or the promise
    awaited for entry [h] settles and the suspended activation continues. *)
Inductive event : Type :=
| Enqueue (f : operation)
| Settle (h : nat).

Definition step (s : t) (ev : event) : t :=
  match ev with
  | Enqueue f => snd (enqueue f s)
  | Settle h => settle h s
  end.

Definition run (s : t) (tr : list event) : t := fold_left step tr s.

(** The operations submitted by a trace, in submission order. *)
Fixpoint submitted (tr : list event) : list operation :=
  match tr with
  | [] => []
  | Enqueue f :: r => f :: submitted r
  | Settle _ :: r => submitted r
  end.

(** The environment lets the awaited operation complete. *)
Definition settle_next (s : t) : t :=
  match awaiting s with
  | [] => s
  | (h, _) :: _ => settle h s
  end.

(** [n] completions in a row. *)
Fixpoint finish (n : nat) (s : t) : t :=
  match n with
  | O => s
  | S m => finish m (settle_next s)
  end.

(** Entries made of the operations [fs], numbered from [k]. *)
Fixpoint number (k : nat) (fs : list operation) : list entry :=
  match fs with
  | [] => []
  | f :: r => Entry f k :: number (S k) r
  end.

(** The resolve / reject call an entry ends with. *)
Definition verdict (e : entry) : nat * outcome :=
  (resolvers e, result_of (promiseFunc e)).

Definition start_count (h : nat) (s : t) : nat :=
  List.length (filter (fun e => Nat.eqb h (resolvers e)) (started s)).

(** The shape of a queue on which the operations [ops] have been submitted:
    a prefix [pre] has been started, the rest [post] is still queued with
    its promises numbered in submission order; every started entry has had
    its resolve / reject call, except the one being awaited, if any. *)
Definition shape (ops : list operation) (s : t) : Prop :=
  exists pre post,
    ops = pre ++ post /\
    queue s = number (List.length pre) post /\
    promises s = List.length ops /\
    started s = number 0 pre /\
    settled s ++ awaiting s = map verdict (number 0 pre) /\
    List.length (awaiting s) <= 1 /\
    processing s = match awaiting s with [] => false | _ :: _ => true end /\
    (awaiting s = [] -> post = []).

(** What is still to do: the queued entries and the awaited one. *)
Definition backlog (s : t) : nat :=
  List.length (queue s) + List.length (awaiting s).

End PromiseQueue.

(** ** 6.2 PromisePool *)

Module PromisePool.

(** An activation of [add]: the number of the call (which also names the
    promise the call returned) and its [promiseFunc].  The functions in
    [this.queue] are the [resolve] functions of the promises created on
    the line [await new Promise(resolve => this.queue.push(resolve))];
    each belongs to exactly one activation parked on that line and is
    represented by it: calling it schedules the continuation of that
    activation. *)
Definition waiter : Type := (nat * operation)%type.

Record t : Type := Make {
  maxConcurrent : Z;                 (* this.maxConcurrent *)
  running : Z;                       (* this.running *)
  queue : list waiter;               (* this.queue *)
  woken : list waiter;               (* parked activations whose resolve has
                                        been called: their continuations wait
                                        in the job queue, oldest first *)
  inflight : list (nat * outcome);   (* activations suspended at
                                        [await promiseFunc()] *)
  calls : nat;                       (* calls of add so far *)
  started : list waiter;             (* log: calls of promiseFunc *)
  settled : list (nat * outcome)     (* log: settlements of the promises
                                        returned by add *)
}.

(** [new PromisePool(maxConcurrent)]: three assignments, no check. *)
Definition constructor (maxConcurrent : Z) : completion t :=
  Normal (Make maxConcurrent 0 [] [] [] 0 [] []).

(** A pool as the constructor leaves it. *)
Definition fresh (maxConcurrent : Z) : t :=
  Make maxConcurrent 0 [] [] [] 0 [] [].

(** The [finally] block: [this.running--], then, if a resolve function is
    queued, [this.queue.shift()()]. *)
Definition finally_block (s : t) : t :=
  match queue s with
  | [] =>
      Make (maxConcurrent s) (running s - 1) [] (woken s) (inflight s)
           (calls s) (started s) (settled s)
  | w :: q' =>
      Make (maxConcurrent s) (running s - 1) q' (woken s ++ [w]) (inflight s)
           (calls s) (started s) (settled s)
  end.

(** The promise returned by call [id] settles. *)
Definition conclude (id : nat) (o : outcome) (s : t) : t :=
  Make (maxConcurrent s) (running s) (queue s) (woken s) (inflight s)
       (calls s) (started s) (settled s ++ [(id, o)]).

(** From [this.running++] to the next suspension of the activation [id]:
    the counter goes up, [promiseFunc()] is called inside [try]; if the call
    throws, the [finally] block runs at once and the returned promise is
    rejected, otherwise the activation is suspended at [await]. *)
Definition launch (id : nat) (f : operation) (s : t) : t :=
  let s1 := Make (maxConcurrent s) (running s + 1) (queue s) (woken s) (inflight s)
                 (calls s) (started s ++ [(id, f)]) (settled s) in
  match f with
  | SyncThrow e => conclude id (Rejected e) (finally_block s1)
  | Async o =>
      Make (maxConcurrent s1) (running s1) (queue s1) (woken s1)
           (inflight s1 ++ [(id, o)]) (calls s1) (started s1) (settled s1)
  end.

(** [add(promiseFunc)], up to its first suspension: the promise it returns
    and the state it leaves. *)
Definition add (f : operation) (s : t) : nat * t :=
  let id := calls s in
  let s0 := Make (maxConcurrent s) (running s) (queue s) (woken s) (inflight s)
                 (S id) (started s) (settled s) in
  (id,
   if Z.geb (running s0) (maxConcurrent s0)
   then (* await new Promise(resolve => this.queue.push(resolve)) *)
        Make (maxConcurrent s0) (running s0) (queue s0 ++ [(id, f)]) (woken s0)
             (inflight s0) (calls s0) (started s0) (settled s0)
   else launch id f s0).

(** The continuation of the oldest woken activation: it leaves the [if]
    and goes on with [this.running++]. *)
Definition resume (s : t) : t :=
  match woken s with
  | [] => s
  | (id, f) :: ws =>
      launch id f (Make (maxConcurrent s) (running s) (queue s) ws (inflight s)
                       (calls s) (started s) (settled s))
  end.

(** The continuation of the activation [id] suspended at
    [await promiseFunc()], run when that promise has settled: the [finally]
    block, then the returned promise settles the same way. *)
Definition settle (id : nat) (s : t) : t :=
  match extract id (inflight s) with
  | None => s
  | Some (o, fl) =>
      conclude id o
        (finally_block (Make (maxConcurrent s) (running s) (queue s) (woken s) fl
                             (calls s) (started s) (settled s)))
  end.

(** The pieces of code that can run on a pool, in the order the event loop
    runs them: a call of [add] by user code (from a script, a timer or a
    promise callback), the continuation of the activation [id] after its
    operation completed, and the continuation of the oldest woken
    activation.  Continuations are jobs of the microtask queue; a user
    callback that was put in that queue earlier runs before a continuation
    that is put there later. *)
Inductive event : Type :=
| Add (f : operation)
| Settle (id : nat)
| Resume.

Definition step (s : t) (ev : event) : t :=
  match ev with
  | Add f => snd (add f s)
  | Settle id => settle id s
  | Resume => resume s
  end.

Definition run (s : t) (tr : list event) : t := fold_left step tr s.

Fixpoint submitted (tr : list event) : list operation :=
  match tr with
  | [] => []
  | Add f :: r => f :: submitted r
  | _ :: r => submitted r
  end.

(** Activations made of the operations [fs], numbered from [k]. *)
Fixpoint number (k : nat) (fs : list operation) : list waiter :=
  match fs with
  | [] => []
  | f :: r => (k, f) :: number (S k) r
  end.

Definition verdict (w : waiter) : nat * outcome := (fst w, result_of (snd w)).

(** One turn of an environment that lets everything complete: a pending
    continuation of a woken activation runs first; when there is none, the
    oldest operation in flight completes. *)
Definition turn (s : t) : t :=
  match woken s with
  | _ :: _ => resume s
  | [] =>
      match inflight s with
      | [] => s
      | (id, _) :: _ => settle id s
      end
  end.

Fixpoint finish (n : nat) (s : t) : t :=
  match n with
  | O => s
  | S m => finish m (turn s)
  end.

(** Whether [Settle i] for some [i < n] occurs in a trace. *)
Fixpoint completes_below (n : nat) (tr : list event) : bool :=
  match tr with
  | [] => false
  | Settle i :: r => Nat.ltb i n || completes_below n r
  | _ :: r => completes_below n r
  end.

(** Number of times the operation of call [id] has been called. *)
Definition start_count (id : nat) (s : t) : nat := occ id (started s).

(** What remains to be done by [turn]. *)
Definition backlog (s : t) : nat :=
  2 * List.length (queue s) + 2 * List.length (woken s) + List.length (inflight s).

(** The bookkeeping of a pool on which the operations [ops] have been
    submitted: [running] counts the operations in flight; every call of
    [add] made so far is in exactly one place (queued, woken, in flight or
    settled); the operations called are those in flight or settled; and
    every activation carries the operation of its call. *)
Record sound (ops : list operation) (s : t) : Prop := Sound {
  sound_calls : calls s = List.length ops;
  sound_running : running s = Z.of_nat (List.length (inflight s));
  sound_total :
    List.length (queue s) + List.length (woken s) + List.length (inflight s)
    + List.length (settled s) = calls s;
  sound_balance :
    List.length (started s) = List.length (inflight s) + List.length (settled s);
  sound_place : forall id,
    occ id (queue s) + occ id (woken s) + occ id (inflight s) + occ id (settled s)
    = if Nat.ltb id (calls s) then 1 else 0;
  sound_started : forall id,
    occ id (started s) = occ id (inflight s) + occ id (settled s);
  sound_queue : forall id f,
    In (id, f) (queue s) -> nth_error ops id = Some f;
  sound_woken : forall id f,
    In (id, f) (woken s) -> nth_error ops id = Some f;
  sound_called : forall id f,
    In (id, f) (started s) -> nth_error ops id = Some f;
  sound_inflight : forall id o,
    In (id, o) (inflight s) -> nth_error ops id = Some (Async o);
  sound_settled : forall id o,
    In (id, o) (settled s) -> option_map result_of (nth_error ops id) = Some o
}.

(** No activation stays queued while the pool has room: if the queue is
    not empty, the operations in flight and the woken activations together
    are at least [maxConcurrent]. *)
Definition busy (s : t) : Prop :=
  queue s <> [] ->
  (maxConcurrent s <= running s + Z.of_nat (List.length (woken s)))%Z.

(** On a pool whose limit is below 1 nothing is ever called. *)
Definition idle_forever (m : Z) (s : t) : Prop :=
  maxConcurrent s = m /\ running s = 0%Z /\ woken s = [] /\ inflight s = [] /\
  started s = [] /\ settled s = [].

(** The pool is full and the call [n] has not been started: what holds
    from the moment the limit is reached until one of the first [n] calls
    completes. *)
Definition held (n : nat) (s : t) : Prop :=
  maxConcurrent s = Z.of_nat n /\ running s = Z.of_nat n /\ woken s = [] /\
  occ n (started s) = 0 /\
  (forall id, n <= id -> occ id (inflight s) = 0).

(** A trace in which no call of [add] runs while a woken activation still
    waits for its continuation. *)
Fixpoint orderly (s : t) (tr : list event) : bool :=
  match tr with
  | [] => true
  | Add f :: r =>
      match woken s with
      | [] => orderly (step s (Add f)) r
      | _ :: _ => false
      end
  | ev :: r => orderly (step s ev) r
  end.

(** The operations in flight and the activations about to start one fit
    within the limit. *)
Definition within_limit (s : t) : Prop :=
  (0 <= maxConcurrent s ->
   running s + Z.of_nat (List.length (woken s)) <= maxConcurrent s)%Z.

End PromisePool.

(** ** Examples *)

Module Examples.
Import PromisePool.

Definition A := Async (Fulfilled (VString "a")).
Definition B := Async (Fulfilled (VString "b")).
Definition C := Async (Fulfilled (VString "c")).
Definition D := Async (Fulfilled (VString "d")).

(** A call of [add] that runs between the wake-up of a parked activation
    and its continuation.  In JavaScript:
<<
      const pool = new PromisePool(1);
      let finishA;
      pool.add(() => new Promise(r => { finishA = r; }));   // A is called
      pool.add(B);                                          // parked
      finishA("a");                       // job 1: continuation of A's add
      Promise.resolve().then(() => pool.add(C));            // job 2
>>
    Job 1 runs the [finally] block: [running] drops to 0 and the resolve
    function of B's activation is called, which appends job 3, the
    continuation of B's activation, behind job 2.  Job 2 calls [add(C)],
    which finds [running = 0] and calls C.  Job 3 then calls B. *)
Definition overtaking : list event :=
  [Add A; Add B; Settle 0; Add C; Resume].

End Examples.

(** ** 4.3 retryOperation *)

Module Retry.

(** What a run of [retryOperation] does that its caller can observe: the
    calls of [operation] and the waits between attempts, in order. *)
Inductive action : Type :=
| Call
| Sleep (ms : Z).

(** The [for] loop of [retryOperation], from the test [i < retries] on.
    [operation k] is what the call of [operation()] does when [k] calls
    were made before; every attempt is taken to complete.  [try { return
    await operation() }] ends the run when the attempt succeeds; the
    [catch] block rethrows on the last round and otherwise waits [delay]
    milliseconds before the next one.  When the loop test fails the
    function falls off its end, so the returned promise is fulfilled with
    [undefined].  The recursion is bounded by [fuel]; [None] means the fuel
    ran out. *)
Fixpoint loop (fuel : nat) (operation : nat -> operation) (retries delay : Z)
    (i : Z) (log : list action) : option (outcome * list action) :=
  match fuel with
  | O => None
  | S fuel' =>
      if Z.ltb i retries then
        match result_of (operation (Z.to_nat i)) with
        | Fulfilled v => Some (Fulfilled v, log ++ [Call])
        | Rejected e =>
            if Z.eqb i (retries - 1) then Some (Rejected e, log ++ [Call])
            else loop fuel' operation retries delay (i + 1)
                      (log ++ [Call; Sleep delay])
        end
      else Some (Fulfilled VUndefined, log)
  end.

(** [retryOperation(operation, retries = 3, delay = 1000)]; an argument
    left out is [None]. *)
Definition given (argument : option Z) (default : Z) : Z :=
  match argument with
  | Some z => z
  | None => default
  end.

Definition retryOperation (operation : nat -> operation)
    (retries delay : option Z) : option (outcome * list action) :=
  let r := given retries 3 in
  let d := given delay 1000 in
  loop (S (Z.to_nat r)) operation r d 0 [].

(** [k] failed attempts, each followed by a wait. *)
Fixpoint failures (k : nat) (delay : Z) : list action :=
  match k with
  | O => []
  | S k' => Call :: Sleep delay :: failures k' delay
  end.

Definition fails (f : operation) : bool :=
  match result_of f with
  | Rejected _ => true
  | Fulfilled _ => false
  end.

Definition calls (log : list action) : nat :=
  List.length (filter (fun a => match a with Call => true | Sleep _ => false end) log).

Definition sleeps (log : list action) : nat :=
  List.length (filter (fun a => match a with Call => false | Sleep _ => true end) log).

End Retry.

(** ** 4.1 promisify *)

Module Promisify.









End Promisify.

(** ** 5.3 errorRecovery *)

Module Recovery.

Inductive call : Type :=
| Risky
| Fallback.

(** [errorRecovery()]: the outcome of the returned promise and the calls
    made.  [riskyOperation] and [fallbackOperation] are the two functions
    the body refers to; [isNetworkError e] is [e instanceof NetworkError]. *)
Definition errorRecovery (isNetworkError : value -> bool)
    (riskyOperation fallbackOperation : operation) : outcome * list call :=
  match result_of riskyOperation with
  | Fulfilled result => (Fulfilled result, [Risky])
  | Rejected error =>
      if isNetworkError error
      then (result_of fallbackOperation, [Risky; Fallback])
      else (Rejected error, [Risky])
  end.

End Recovery.

(** ** More examples *)

Module MoreExamples.

(** An operation that fails twice, then succeeds. *)
Definition flaky (k : nat) : operation :=
  if Nat.ltb k 2 then Async (Rejected (VString "busy"))
  else Async (Fulfilled (VNumber 42)).

(** An operation that always fails, with the number of the attempt. *)
Definition hopeless (k : nat) : operation :=
  Async (Rejected (VNumber (Z.of_nat k))).


(** A call of [add] that finds a caller woken and another one queued.  In
    JavaScript, with [pool = new PromisePool(1)]:
<<
      pool.add(() => new Promise(r => { finishA = r; }));   // A is called
      pool.add(B);  pool.add(D);                            // both parked
      finishA("a");                       // job 1: continuation of A's add
      Promise.resolve().then(() => pool.add(C));            // job 2
>>
    After job 1 the pool has [running = 0], B woken and D queued; job 2,
    the call [add(C)], runs in that state, before the continuation of B. *)
Definition jumping : list PromisePool.event :=
  [PromisePool.Add Examples.A; PromisePool.Add Examples.B;
   PromisePool.Add Examples.D; PromisePool.Settle 0].

End MoreExamples.

(** ** Submission as the specification words it *)

Module PoolSpec.
Import PromisePool.

(** Following the specification's words for the scheduler, on the state of
    a pool; to be compared with [PromisePool.add].  "Begin executing its
    operation asynchronously.  On completion (success or failure), settle
    the task's result handle with the outcome, decrement running": an
    operation whose call throws completes at once. *)
Definition start (id : nat) (f : operation) (s : t) : t :=
  match f with
  | Async o =>
      Make (maxConcurrent s) (running s + 1) (queue s) (woken s)
           (inflight s ++ [(id, o)]) (calls s) (started s ++ [(id, f)])
           (settled s)
  | SyncThrow e =>
      Make (maxConcurrent s) (running s + 1 - 1) (queue s) (woken s)
           (inflight s) (calls s) (started s ++ [(id, f)])
           (settled s ++ [(id, Rejected e)])
  end.

(** "While running < N and the queue is non-empty, dequeue the head task,
    increment running, and begin executing its operation."  Each round
    takes one task out of the queue, so [fuel] rounds are enough for a queue
    of [fuel] tasks. *)
Fixpoint admission (fuel : nat) (s : t) : t :=
  match fuel with
  | O => s
  | S n =>
      if Z.ltb (running s) (maxConcurrent s) then
        match queue s with
        | [] => s
        | (id, f) :: q =>
            admission n
              (start id f (Make (maxConcurrent s) (running s) q (woken s)
                                (inflight s) (calls s) (started s) (settled s)))
        end
      else s
  end.

(** "Wraps operation in a Task, enqueues it, immediately attempts
    admission, and returns the Task's result handle." *)
Definition submit (f : operation) (s : t) : nat * t :=
  let id := calls s in
  (id,
   admission (S (List.length (queue s)))
     (Make (maxConcurrent s) (running s) (queue s ++ [(id, f)]) (woken s)
           (inflight s) (S id) (started s) (settled s))).

End PoolSpec.

(** A trace without any call of [add]. *)
Fixpoint no_add (tr : list PromisePool.event) : bool :=
  match tr with
  | [] => true
  | PromisePool.Add _ :: _ => false
  | _ :: r => no_add r
  end.

(** ** Start order of a pool *)

(** The calls of [add] in the order started, woken, queued are the calls in
    the order they were made. *)
Definition in_call_order (s : PromisePool.t) : Prop :=
  map fst (PromisePool.started s) ++ map fst (PromisePool.woken s)
  ++ map fst (PromisePool.queue s) = seq 0 (PromisePool.calls s).

(** * Theorems *)

(** ** Lists of suspended activations *)

Lemma extract_nil_or_single (A : Type) (h : nat) (l : list (nat * A)) (a : A)
    (r : list (nat * A)) :
  List.length l <= 1 -> extract h l = Some (a, r) -> l = [(h, a)] /\ r = [].
Proof.
  destruct l as [|[k b] [|c l']]; simpl; intros Hlen Hex; try lia.
  - discriminate.
  - destruct (Nat.eqb_spec h k) as [->|_]; [|discriminate].
    inversion Hex; subst. split; reflexivity.
Qed.

Lemma extract_head (A : Type) (h : nat) (a : A) (r : list (nat * A)) :
  extract h ((h, a) :: r) = Some (a, r).
Proof. simpl. rewrite Nat.eqb_refl. reflexivity. Qed.

(** ** PromiseQueue: the shape of reachable states *)

Section QueueShape.
Import PromiseQueue.

Lemma number_app (k : nat) (a b : list operation) :
  number k (a ++ b) = number k a ++ number (k + List.length a) b.
Proof.
  revert k. induction a as [|f a IH]; intros k; simpl.
  - rewrite Nat.add_0_r. reflexivity.
  - rewrite IH. replace (S k + List.length a) with (k + S (List.length a)) by lia.
    reflexivity.
Qed.

Lemma number_length (k : nat) (a : list operation) :
  List.length (number k a) = List.length a.
Proof. revert k. induction a; intros; simpl; auto. Qed.

Lemma map_promiseFunc_number (k : nat) (a : list operation) :
  map promiseFunc (number k a) = a.
Proof. revert k. induction a as [|f a IH]; intros; simpl; [|rewrite IH]; reflexivity. Qed.

Lemma map_resolvers_number (k : nat) (a : list operation) :
  map resolvers (number k a) = seq k (List.length a).
Proof. revert k. induction a as [|f a IH]; intros; simpl; [|rewrite IH]; reflexivity. Qed.

(** What one run of the loop does to a queue of numbered entries when no
    activation is suspended: it rejects the promises of the leading
    operations whose call throws, and stops at the first operation that
    returns, or at the end of the queue. *)
Lemma while_loop_shape (post : list operation) :
  forall (k np : nat) (st : list entry) (se : list (nat * outcome)),
  exists pre' post',
    post = pre' ++ post' /\
    let r := while_loop (number k post) true [] np st se in
    queue r = number (k + List.length pre') post' /\
    promises r = np /\
    started r = st ++ number k pre' /\
    settled r ++ awaiting r = se ++ map verdict (number k pre') /\
    List.length (awaiting r) <= 1 /\
    processing r = match awaiting r with [] => false | _ :: _ => true end /\
    (awaiting r = [] -> post' = []) /\
    List.length (awaiting r) <= List.length pre'.
Proof.
  induction post as [|f post IH]; intros k np st se.
  - exists [], []. simpl. rewrite !app_nil_r. repeat split; auto.
  - destruct f as [e|o].
    + destruct (IH (S k) np (st ++ [Entry (SyncThrow e) k])
                  (se ++ [(k, Rejected e)]))
        as (pre' & post' & Hsplit & Hq & Hp & Hst & Hse & Hlen & Hflag & Hempty & Hle).
      exists (SyncThrow e :: pre'), post'. simpl in *.
      split; [congruence|].
      replace (k + S (List.length pre')) with (S (k + List.length pre')) by lia.
      rewrite Hq, Hp, Hst, Hse, <- !app_assoc. simpl.
      repeat split; auto.
    + exists [Async o], post. simpl.
      replace (k + 1) with (S k) by lia.
      repeat split; auto; congruence.
Qed.

Lemma shape_constructor : shape [] constructor.
Proof.
  exists [], []. simpl. repeat split; auto.
Qed.

Lemma shape_enqueue (ops : list operation) (s : t) (f : operation) :
  shape ops s -> shape (ops ++ [f]) (snd (enqueue f s)).
Proof.
  intros (pre & post & Hops & Hq & Hp & Hst & Hse & Hlen & Hflag & Hempty).
  unfold enqueue, processQueue, push. cbn [snd processing queue awaiting promises started settled].
  destruct (awaiting s) as [|a aw] eqn:Haw.
  - rewrite Hflag.
    rewrite (Hempty eq_refl) in *. rewrite app_nil_r in Hops, Hse. subst pre.
    rewrite Hq, Hp.
    destruct (while_loop_shape [f] (List.length ops) (S (List.length ops))
                (started s) (settled s))
      as (pre' & post' & Hsplit & Hr).
    change (number (List.length ops) [] ++ [Entry f (List.length ops)])
      with (number (List.length ops) [f]).
    cbv zeta in Hr.
    remember (while_loop (number (List.length ops) [f]) true []
                (S (List.length ops)) (started s) (settled s)) as r.
    destruct Hr as (Hq' & Hp' & Hst' & Hse' & Hlen' & Hflag' & Hempty' & _).
    exists (ops ++ pre'), post'.
    rewrite <- app_assoc, <- Hsplit, !length_app, number_app, map_app.
    rewrite Hq', Hp', Hst', Hse', Hst, Hse. simpl.
    repeat split; auto. lia.
  - rewrite Hflag.
    exists pre, (post ++ [f]).
    cbn [queue promises started settled awaiting processing].
    rewrite Hq, Hp, Hops, number_app, <- app_assoc, !length_app.
    simpl. repeat split; auto.
    + lia.
    + discriminate.
Qed.

Lemma shape_settle (ops : list operation) (s : t) (h : nat) :
  shape ops s -> shape ops (settle h s).
Proof.
  intros Hs. pose proof Hs as (pre & post & Hops & Hq & Hp & Hst & Hse & Hlen & Hflag & Hempty).
  unfold settle.
  destruct (extract h (awaiting s)) as [[o aw']|] eqn:Hex; [|exact Hs].
  destruct (extract_nil_or_single _ _ Hlen Hex) as [Haw ->].
  rewrite Haw in *. rewrite Hflag, Hq.
  destruct (while_loop_shape post (List.length pre) (promises s) (started s)
              (settled s ++ [(h, o)]))
    as (pre' & post' & Hsplit & Hr).
  cbv zeta in Hr.
  remember (while_loop (number (List.length pre) post) true [] (promises s)
              (started s) (settled s ++ [(h, o)])) as r.
  destruct Hr as (Hq' & Hp' & Hst' & Hse' & Hlen' & Hflag' & Hempty' & _).
  exists (pre ++ pre'), post'.
  rewrite Hops, Hsplit, <- app_assoc, !length_app, number_app, map_app.
  rewrite Hq', Hp', Hst', Hse', Hst, Hse, Hp, Hops, Hsplit, !length_app.
  repeat split; auto.
Qed.

Lemma submitted_app (tr1 tr2 : list event) :
  submitted (tr1 ++ tr2) = submitted tr1 ++ submitted tr2.
Proof.
  induction tr1 as [|[f|h] tr1 IH]; simpl; [reflexivity| |exact IH].
  rewrite IH. reflexivity.
Qed.

Lemma shape_step (ops : list operation) (s : t) (ev : event) :
  shape ops s -> shape (ops ++ submitted [ev]) (step s ev).
Proof.
  destruct ev as [f|h]; simpl; intros Hs.
  - apply shape_enqueue, Hs.
  - rewrite app_nil_r. apply shape_settle, Hs.
Qed.

Lemma shape_run (tr : list event) :
  forall (ops : list operation) (s : t),
  shape ops s -> shape (ops ++ submitted tr) (run s tr).
Proof.
  induction tr as [|ev tr IH]; intros ops s Hs.
  - simpl. rewrite app_nil_r. exact Hs.
  - change (run s (ev :: tr)) with (run (step s ev) tr).
    replace (ops ++ submitted (ev :: tr)) with ((ops ++ submitted [ev]) ++ submitted tr).
    + apply IH, shape_step, Hs.
    + rewrite <- app_assoc. f_equal. destruct ev; reflexivity.
Qed.

Lemma shape_reachable (tr : list event) :
  shape (submitted tr) (run constructor tr).
Proof. exact (shape_run tr shape_constructor). Qed.

(** *** Completion of everything that was submitted *)

(** An idle queue has started every submitted operation, in submission
    order, and has made exactly the call each one ends with. *)
Lemma shape_idle (ops : list operation) (s : t) :
  shape ops s -> awaiting s = [] ->
  started s = number 0 ops /\ settled s = map verdict (number 0 ops) /\
  queue s = [] /\ processing s = false.
Proof.
  intros (pre & post & Hops & Hq & Hp & Hst & Hse & Hlen & Hflag & Hempty) Haw.
  rewrite (Hempty Haw) in *. rewrite app_nil_r in Hops. subst pre.
  rewrite Haw in *. rewrite app_nil_r in Hse. auto.
Qed.

Lemma settle_next_backlog (ops : list operation) (s : t) :
  shape ops s -> awaiting s <> [] -> backlog (settle_next s) < backlog s.
Proof.
  intros (pre & post & Hops & Hq & Hp & Hst & Hse & Hlen & Hflag & Hempty) Hne.
  unfold settle_next, backlog.
  destruct (awaiting s) as [|[h o] [|b aw]] eqn:Haw; [congruence| |simpl in Hlen; lia].
  unfold settle. rewrite Haw, extract_head, Hflag, Hq.
  destruct (while_loop_shape post (List.length pre) (promises s) (started s)
              (settled s ++ [(h, o)]))
    as (pre' & post' & Hsplit & Hr).
  cbv zeta in Hr.
  remember (while_loop (number (List.length pre) post) true [] (promises s)
              (started s) (settled s ++ [(h, o)])) as r.
  destruct Hr as (Hq' & _ & _ & _ & _ & _ & _ & Hle).
  rewrite Hq', !number_length, Hsplit, length_app. simpl. lia.
Qed.

Lemma settle_next_shape (ops : list operation) (s : t) :
  shape ops s -> shape ops (settle_next s).
Proof.
  intros Hs. unfold settle_next.
  destruct (awaiting s) as [|[h o] aw]; [exact Hs|].
  apply shape_settle, Hs.
Qed.

Lemma finish_shape (n : nat) :
  forall (ops : list operation) (s : t), shape ops s -> shape ops (finish n s).
Proof.
  induction n as [|n IH]; intros ops s Hs; simpl; [exact Hs|].
  apply IH, settle_next_shape, Hs.
Qed.

Lemma finish_idle (n : nat) :
  forall (ops : list operation) (s : t),
  shape ops s -> backlog s <= n -> awaiting (finish n s) = [].
Proof.
  induction n as [|n IH]; intros ops s Hs Hn; simpl.
  - unfold backlog in Hn. destruct (awaiting s); [reflexivity|simpl in Hn; lia].
  - destruct (awaiting s) as [|a aw] eqn:Haw.
    + apply (IH ops).
      * apply settle_next_shape, Hs.
      * unfold settle_next. rewrite Haw.
        destruct (shape_idle Hs Haw) as (_ & _ & Hq & _).
        unfold backlog. rewrite Hq, Haw. simpl. lia.
    + apply (IH ops).
      * apply settle_next_shape, Hs.
      * assert (backlog (settle_next s) < backlog s)
          by (apply (settle_next_backlog Hs); rewrite Haw; discriminate).
        lia.
Qed.

Lemma shape_backlog (ops : list operation) (s : t) :
  shape ops s -> backlog s <= List.length ops.
Proof.
  intros (pre & post & Hops & Hq & Hp & Hst & Hse & Hlen & Hflag & Hempty).
  unfold backlog. rewrite Hq, number_length, Hops, length_app.
  apply (f_equal (@List.length _)) in Hse.
  rewrite length_app, length_map, number_length in Hse. lia.
Qed.

Lemma finish_complete (tr : list event) (n : nat) :
  List.length (submitted tr) <= n ->
  let s := finish n (run constructor tr) in
  started s = number 0 (submitted tr) /\
  settled s = map verdict (number 0 (submitted tr)) /\
  queue s = [] /\ processing s = false /\ awaiting s = [].
Proof.
  intros Hn s.
  pose proof (shape_reachable tr) as Hs.
  assert (Hidle : awaiting s = []).
  { apply (finish_idle (ops := submitted tr)); [exact Hs|].
    pose proof (shape_backlog Hs). lia. }
  destruct (shape_idle (finish_shape n Hs) Hidle) as (H1 & H2 & H3 & H4).
  auto.
Qed.

End QueueShape.

(** ** Logs of resolve / reject calls *)

Lemma occ_app (A : Type) (k : nat) (l1 l2 : list (nat * A)) :
  occ k (l1 ++ l2) = occ k l1 + occ k l2.
Proof.
  induction l1 as [|[k' a] l1 IH]; simpl; [reflexivity|].
  rewrite IH. lia.
Qed.

Lemma settle_count_app (h : nat) (l1 l2 : list (nat * outcome)) :
  settle_count h (l1 ++ l2) = settle_count h l1 + settle_count h l2.
Proof. apply occ_app. Qed.

Lemma handle_state_app (h : nat) (l1 l2 : list (nat * outcome)) :
  handle_state h (l1 ++ l2) =
  match handle_state h l1 with
  | Some o => Some o
  | None => handle_state h l2
  end.
Proof.
  induction l1 as [|[k o] l1 IH]; simpl; [reflexivity|].
  destruct (Nat.eqb h k); [reflexivity|exact IH].
Qed.

Lemma handle_state_count (h : nat) (l : list (nat * outcome)) :
  settle_count h l = 0 -> handle_state h l = None.
Proof.
  unfold settle_count. induction l as [|[k o] l IH]; simpl; [reflexivity|].
  destruct (Nat.eqb h k); simpl; [discriminate|exact IH].
Qed.

(** Case analysis on every comparison of naturals in the goal. *)
Ltac nat_tests :=
  repeat match goal with
         | |- context [Nat.leb ?a ?b] => destruct (Nat.leb_spec a b)
         | |- context [Nat.ltb ?a ?b] => destruct (Nat.ltb_spec a b)
         | |- context [Nat.eqb ?a ?b] => destruct (Nat.eqb_spec a b)
         end;
  simpl; try reflexivity; try lia.

Section QueueLogs.
Import PromiseQueue.

Lemma settle_count_verdicts (ops : list operation) :
  forall k h,
  settle_count h (map verdict (number k ops)) =
  if Nat.leb k h && Nat.ltb h (k + List.length ops) then 1 else 0.
Proof.
  unfold settle_count.
  induction ops as [|f ops IH]; intros k h; simpl.
  - nat_tests.
  - destruct (Nat.eqb_spec h k) as [->|Hne]; simpl; rewrite IH; nat_tests.
Qed.

Lemma start_count_number (ops : list operation) :
  forall k h,
  List.length (filter (fun e => Nat.eqb h (resolvers e)) (number k ops)) =
  if Nat.leb k h && Nat.ltb h (k + List.length ops) then 1 else 0.
Proof.
  induction ops as [|f ops IH]; intros k h; simpl.
  - nat_tests.
  - destruct (Nat.eqb_spec h k) as [->|Hne]; simpl; rewrite IH; nat_tests.
Qed.

Lemma handle_state_verdicts (ops : list operation) :
  forall k h,
  handle_state h (map verdict (number k ops)) =
  if Nat.leb k h then option_map result_of (nth_error ops (h - k)) else None.
Proof.
  induction ops as [|f ops IH]; intros k h; simpl.
  - destruct (Nat.leb k h); [|reflexivity]. destruct (h - k); reflexivity.
  - destruct (Nat.eqb_spec h k) as [->|Hne].
    + rewrite Nat.leb_refl, Nat.sub_diag. reflexivity.
    + rewrite IH. destruct (Nat.leb_spec (S k) h), (Nat.leb_spec k h); try lia.
      * replace (h - k) with (S (h - S k)) by lia. reflexivity.
      * reflexivity.
Qed.

Lemma In_number (ops : list operation) :
  forall k h f, nth_error ops h = Some f -> In (Entry f (k + h)) (number k ops).
Proof.
  induction ops as [|g ops IH]; intros k [|h] f Hn; simpl in *; try discriminate.
  - inversion Hn; subst. left. f_equal. lia.
  - right. rewrite <- Nat.add_succ_comm. apply IH, Hn.
Qed.

(** The started entries are always the first submitted operations, in
    submission order. *)
Lemma started_prefix (tr : list event) :
  exists k, started (run constructor tr) = firstn k (number 0 (submitted tr)).
Proof.
  destruct (shape_reachable tr)
    as (pre & post & Hops & Hq & Hp & Hst & Hse & Hlen & Hflag & Hempty).
  exists (List.length pre).
  rewrite Hst, Hops, number_app.
  rewrite <- (number_length 0 pre) at 1.
  rewrite firstn_app, firstn_all, Nat.sub_diag. simpl.
  rewrite app_nil_r. reflexivity.
Qed.

Lemma firstn_map_comm (A B : Type) (g : A -> B) (k : nat) (l : list A) :
  firstn k (map g l) = map g (firstn k l).
Proof. revert l. induction k; intros [|a l]; simpl; f_equal; auto. Qed.

End QueueLogs.

(** ** PromiseQueue: order, single settlement, sequential execution *)

Section QueueClaims.
Import PromiseQueue.

Lemma firstn_prefix (A : Type) (k : nat) (l l' : list A) :
  firstn k l = firstn (Nat.min k (List.length l)) (l ++ l').
Proof.
  rewrite firstn_app.
  replace (Nat.min k (List.length l) - List.length l) with 0 by lia.
  simpl. rewrite app_nil_r.
  destruct (Nat.le_ge_cases k (List.length l)) as [H|H].
  - rewrite Nat.min_l by exact H. reflexivity.
  - rewrite Nat.min_r by exact H. rewrite firstn_all, firstn_all2; auto.
Qed.

(** C3.  Tasks begin executing in exactly their submission order: whenever
    three operations T1, T2, T3 are enqueued in that order (with the
    completions of awaited operations interleaved in any way), the
    operations called so far are at every moment an initial part of
    T1, T2, T3, and once the awaited operations have completed all three
    have been called, in the order T1, T2, T3. *)
Theorem queue_starts_in_submission_order
    (tr1 tr2 : list event) (T1 T2 T3 : operation) :
  submitted (tr1 ++ tr2) = [T1; T2; T3] ->
  (exists k,
     map promiseFunc (started (run constructor tr1)) = firstn k [T1; T2; T3]) /\
  map promiseFunc (started (finish 3 (run constructor (tr1 ++ tr2))))
    = [T1; T2; T3] /\
  map resolvers (started (finish 3 (run constructor (tr1 ++ tr2))))
    = [0; 1; 2].
Proof.
  intros Hsub. split.
  - destruct (started_prefix tr1) as [k Hk].
    exists (Nat.min k (List.length (submitted tr1))).
    rewrite Hk, <- firstn_map_comm, map_promiseFunc_number.
    rewrite <- Hsub, submitted_app. apply firstn_prefix.
  - assert (Hn : List.length (submitted (tr1 ++ tr2)) <= 3)
      by (rewrite Hsub; simpl; lia).
    destruct (finish_complete (tr1 ++ tr2) Hn) as (Hst & _).
    rewrite Hst, map_promiseFunc_number, map_resolvers_number, Hsub.
    split; reflexivity.
Qed.

Lemma queue_starts_in_submission_order_witness :
  map promiseFunc
    (started (finish 3 (run constructor
       ([Enqueue (Async (Rejected (VString "first"))); Enqueue (SyncThrow (VNumber 2))]
        ++ [Settle 0; Enqueue (Async (Fulfilled (VNumber 3)))]))))
  = [Async (Rejected (VString "first")); SyncThrow (VNumber 2);
     Async (Fulfilled (VNumber 3))].
Proof.
  exact (proj1 (proj2 (@queue_starts_in_submission_order
    [Enqueue (Async (Rejected (VString "first"))); Enqueue (SyncThrow (VNumber 2))]
    [Settle 0; Enqueue (Async (Fulfilled (VNumber 3)))]
    (Async (Rejected (VString "first"))) (SyncThrow (VNumber 2))
    (Async (Fulfilled (VNumber 3))) eq_refl))).
Defined.

(** C5.  Every submitted task has its operation called exactly once and
    its result handle settled exactly once, with the outcome of that one
    call.  At every moment an operation has been called at most once and
    its handle has had at most one resolve / reject call, none before the
    operation was called; once the awaited operations have completed, the
    operation has been called exactly once and the handle has had exactly
    one call, which fulfils or rejects it as the operation ended. *)
Theorem queue_handle_settled_exactly_once
    (tr : list event) (h : nat) (f : operation) (n : nat) :
  nth_error (submitted tr) h = Some f ->
  List.length (submitted tr) <= n ->
  let s := run constructor tr in
  let s' := finish n s in
  (start_count h s <= 1 /\
   settle_count h (settled s) <= start_count h s /\
   (forall o, handle_state h (settled s) = Some o -> o = result_of f)) /\
  (start_count h s' = 1 /\
   In (Entry f h) (started s') /\
   settle_count h (settled s') = 1 /\
   handle_state h (settled s') = Some (result_of f)).
Proof.
  intros Hf Hn s s'.
  assert (Hh : h < List.length (submitted tr))
    by (apply nth_error_Some; congruence).
  split.
  - destruct (shape_reachable tr)
      as (pre & post & Hops & Hq & Hp & Hst & Hse & Hlen & Hflag & Hempty).
    fold s in Hq, Hp, Hst, Hse, Hlen, Hflag, Hempty.
    unfold start_count. rewrite Hst, start_count_number.
    pose proof (settle_count_app h (settled s) (awaiting s)) as Hc.
    rewrite Hse, settle_count_verdicts in Hc.
    repeat split.
    + nat_tests.
    + revert Hc. nat_tests.
    + intros o Ho.
      pose proof (handle_state_app h (settled s) (awaiting s)) as Ha.
      rewrite Ho, Hse, handle_state_verdicts in Ha. simpl in Ha.
      rewrite Nat.sub_0_r in Ha.
      destruct (nth_error pre h) as [g|] eqn:Hg; [|discriminate].
      assert (Hlt : h < List.length pre) by (apply nth_error_Some; congruence).
      rewrite Hops, nth_error_app1, Hg in Hf by exact Hlt.
      inversion Hf; subst. inversion Ha. reflexivity.
  - destruct (finish_complete tr Hn) as (Hst & Hse & _).
    fold s in Hst, Hse. fold s' in Hst, Hse.
    unfold start_count. rewrite Hst, Hse, start_count_number,
      settle_count_verdicts, handle_state_verdicts.
    simpl. rewrite Nat.sub_0_r, Hf.
    repeat split.
    + nat_tests.
    + exact (@In_number (submitted tr) 0 h f Hf).
    + nat_tests.
Qed.

Lemma queue_handle_settled_exactly_once_witness :
  settle_count 1
    (settled (finish 2 (run constructor
       [Enqueue (Async (Fulfilled (VNumber 1)));
        Enqueue (Async (Rejected (VString "no"))); Settle 0]))) = 1 /\
  handle_state 1
    (settled (finish 2 (run constructor
       [Enqueue (Async (Fulfilled (VNumber 1)));
        Enqueue (Async (Rejected (VString "no"))); Settle 0])))
    = Some (Rejected (VString "no")).
Proof.
  pose proof (@queue_handle_settled_exactly_once
                [Enqueue (Async (Fulfilled (VNumber 1)));
                 Enqueue (Async (Rejected (VString "no"))); Settle 0]
                1 (Async (Rejected (VString "no"))) 2 eq_refl (le_n 2)) as H.
  exact (conj (proj1 (proj2 (proj2 (proj2 H)))) (proj2 (proj2 (proj2 (proj2 H))))).
Defined.

(** C9.  processQueue is guarded against re-entry: called while
    [processing] is true it returns at once and leaves the queue as it is.
    Hence, whatever is enqueued and whenever the awaited operations
    complete, at most one operation is being awaited at any time: the
    calls made and not yet answered are exactly the awaited ones, at most
    one, and [processing] is true exactly while one is awaited. *)
Theorem processQueue_runs_one_at_a_time :
  (forall s : t, processing s = true -> processQueue s = s) /\
  (forall (tr : list event) (f : operation),
     let s := run constructor tr in
     List.length (awaiting s) <= 1 /\
     List.length (started s) = List.length (settled s) + List.length (awaiting s) /\
     (processing s = true <-> awaiting s <> []) /\
     (processing s = true ->
        queue (snd (enqueue f s)) = queue s ++ [Entry f (promises s)] /\
        started (snd (enqueue f s)) = started s /\
        awaiting (snd (enqueue f s)) = awaiting s)).
Proof.
  split.
  - intros s Hp. unfold processQueue. rewrite Hp. reflexivity.
  - intros tr f s.
    destruct (shape_reachable tr)
      as (pre & post & Hops & Hq & Hp & Hst & Hse & Hlen & Hflag & Hempty).
    fold s in Hq, Hp, Hst, Hse, Hlen, Hflag, Hempty.
    split; [exact Hlen|].
    split; [rewrite Hst, <- length_app, Hse, length_map; reflexivity|].
    split; [rewrite Hflag; destruct (awaiting s); split; congruence|].
    intros Hbusy. unfold enqueue, processQueue, push. simpl.
    rewrite Hbusy. repeat split; reflexivity.
Qed.

Lemma processQueue_runs_one_at_a_time_witness :
  processing (run constructor [Enqueue (Async (Fulfilled VUndefined))]) = true /\
  processQueue (run constructor [Enqueue (Async (Fulfilled VUndefined))])
    = run constructor [Enqueue (Async (Fulfilled VUndefined))].
Proof.
  split; [reflexivity|].
  exact (proj1 processQueue_runs_one_at_a_time
           (run constructor [Enqueue (Async (Fulfilled VUndefined))]) eq_refl).
Defined.

End QueueClaims.

(** ** PromisePool: bookkeeping of reachable states *)

Lemma extract_occ (A : Type) (k : nat) (l r : list (nat * A)) (a : A) :
  extract k l = Some (a, r) ->
  (forall id, occ id l = (if Nat.eqb id k then 1 else 0) + occ id r) /\
  In (k, a) l /\
  (forall x, In x r -> In x l) /\
  List.length l = S (List.length r).
Proof.
  revert r. induction l as [|[k' b] l IH]; intros r Hex; simpl in *; [discriminate|].
  destruct (Nat.eqb_spec k k') as [->|Hne].
  - inversion Hex; subst. repeat split; auto.
  - destruct (extract k l) as [[c r']|]; [|discriminate].
    inversion Hex; subst. destruct (IH r' eq_refl) as (Hocc & Hin & Hsub & Hlen).
    repeat split.
    + intros id. simpl. rewrite Hocc. lia.
    + right. exact Hin.
    + intros x [Hx|Hx]; [left; exact Hx|right; apply Hsub, Hx].
    + simpl. rewrite Hlen. reflexivity.
Qed.

Lemma extract_none (A : Type) (k : nat) (l : list (nat * A)) :
  occ k l = 0 -> extract k l = None.
Proof.
  induction l as [|[k' b] l IH]; simpl; [reflexivity|].
  destruct (Nat.eqb_spec k k'); [discriminate|].
  intros H. rewrite (IH H). reflexivity.
Qed.

Lemma occ_In (A : Type) (k : nat) (a : A) (l : list (nat * A)) :
  In (k, a) l -> 1 <= occ k l.
Proof.
  induction l as [|[k' b] l IH]; simpl; [tauto|].
  intros [H|H].
  - inversion H; subst. rewrite Nat.eqb_refl. lia.
  - specialize (IH H). lia.
Qed.

Lemma nth_error_snoc_old (A : Type) (l : list A) (i : nat) (a b : A) :
  nth_error l i = Some a -> nth_error (l ++ [b]) i = Some a.
Proof.
  intros H. rewrite nth_error_app1; [exact H|].
  apply nth_error_Some. congruence.
Qed.

Lemma nth_error_snoc_new (A : Type) (l : list A) (b : A) :
  nth_error (l ++ [b]) (List.length l) = Some b.
Proof.
  rewrite nth_error_app2 by lia. rewrite Nat.sub_diag. reflexivity.
Qed.

Section PoolSound.
Import PromisePool.

(** Case analysis on the comparisons in a counting hypothesis. *)
Ltac nat_cases :=
  repeat match goal with
         | H : context [Nat.ltb ?a ?b] |- _ => destruct (Nat.ltb_spec a b)
         | H : context [Nat.eqb ?a ?b] |- _ => destruct (Nat.eqb_spec a b)
         | |- context [Nat.ltb ?a ?b] => destruct (Nat.ltb_spec a b)
         | |- context [Nat.eqb ?a ?b] => destruct (Nat.eqb_spec a b)
         end;
  simpl in *; try lia.

Ltac count_at id H :=
  let H' := fresh in
  pose proof (H id) as H'; repeat rewrite occ_app in *; simpl in *.

Lemma sound_fresh (m : Z) : sound [] (fresh m).
Proof.
  constructor; simpl; auto; try tauto.
Qed.

(** Case analysis on the membership hypotheses. *)
Ltac in_cases :=
  repeat match goal with
         | H : In _ (_ ++ _) |- _ => apply in_app_or in H; destruct H
         | H : In _ (_ :: _) |- _ => destruct H
         | H : In _ [] |- _ => destruct H
         | H : (_, _) = (_, _) |- _ => inversion H; subst; clear H
         end.

Lemma sound_add (ops : list operation) (s : t) (f : operation) :
  sound ops s -> sound (ops ++ [f]) (snd (add f s)).
Proof.
  intros [Hc Hr Ht Hbal Hp Hs Hq Hw Hst Hi Hse].
  assert (Hq' : forall id g, In (id, g) (queue s) ->
                             nth_error (ops ++ [f]) id = Some g)
    by (intros; apply nth_error_snoc_old; auto).
  assert (Hw' : forall id g, In (id, g) (woken s) ->
                             nth_error (ops ++ [f]) id = Some g)
    by (intros; apply nth_error_snoc_old; auto).
  assert (Hst' : forall id g, In (id, g) (started s) ->
                              nth_error (ops ++ [f]) id = Some g)
    by (intros; apply nth_error_snoc_old; auto).
  assert (Hi' : forall id o, In (id, o) (inflight s) ->
                             nth_error (ops ++ [f]) id = Some (Async o))
    by (intros; apply nth_error_snoc_old; auto).
  assert (Hse' : forall id o, In (id, o) (settled s) ->
                  option_map result_of (nth_error (ops ++ [f]) id) = Some o).
  { intros id o Hin. specialize (Hse id o Hin).
    destruct (nth_error ops id) as [g|] eqn:Hg; [|discriminate].
    erewrite nth_error_snoc_old by exact Hg. exact Hse. }
  assert (Hnew : nth_error (ops ++ [f]) (calls s) = Some f)
    by (rewrite Hc; apply nth_error_snoc_new).
  clear Hq Hw Hst Hi Hse.
  unfold add, launch, conclude, finally_block.
  cbn [snd maxConcurrent running queue woken inflight calls started settled].
  destruct (Z.geb (running s) (maxConcurrent s));
    [|destruct f as [e|o]; [destruct (queue s) as [|[wid wf] q] eqn:Hqs|]];
    constructor;
    cbn [snd maxConcurrent running queue woken inflight calls started settled];
    try solve [rewrite ?length_app; simpl in *; lia];
    try solve [intros id; count_at id Hp; count_at id Hs; nat_cases];
    try solve [intros id g Hin; in_cases; eauto with datatypes];
    try solve [intros id g Hin; in_cases; eauto; rewrite Hnew; reflexivity].
Qed.

Lemma sound_resume (ops : list operation) (s : t) :
  sound ops s -> sound ops (resume s).
Proof.
  intros Hsound. pose proof Hsound as [Hc Hr Ht Hbal Hp Hs Hq Hw Hst Hi Hse].
  unfold resume, launch, conclude, finally_block.
  destruct (woken s) as [|[id f] ws] eqn:Hws; [exact Hsound|].
  assert (Hf : nth_error ops id = Some f) by (apply Hw; left; reflexivity).
  cbn [snd maxConcurrent running queue woken inflight calls started settled].
  destruct f as [e|o]; [destruct (queue s) as [|[wid wf] q] eqn:Hqs|];
    constructor;
    cbn [snd maxConcurrent running queue woken inflight calls started settled];
    try solve [rewrite ?length_app; simpl in *; lia];
    try solve [intros k; count_at k Hp; count_at k Hs; nat_cases];
    try solve [intros k g Hin; in_cases; eauto with datatypes];
    try solve [intros k g Hin; in_cases; eauto; rewrite Hf; reflexivity].
Qed.

Lemma sound_settle (ops : list operation) (s : t) (id : nat) :
  sound ops s -> sound ops (settle id s).
Proof.
  intros Hsound. pose proof Hsound as [Hc Hr Ht Hbal Hp Hs Hq Hw Hst Hi Hse].
  unfold settle, conclude, finally_block.
  destruct (extract id (inflight s)) as [[o fl]|] eqn:Hex; [|exact Hsound].
  destruct (extract_occ _ _ Hex) as (Hocc & Hin & Hsub & Hlen).
  assert (Hf : nth_error ops id = Some (Async o)) by (apply Hi, Hin).
  cbn [snd maxConcurrent running queue woken inflight calls started settled].
  destruct (queue s) as [|[wid wf] q] eqn:Hqs;
    constructor;
    cbn [snd maxConcurrent running queue woken inflight calls started settled];
    try solve [rewrite ?length_app; simpl in *; lia];
    try solve [intros k; count_at k Hp; count_at k Hs; count_at k Hocc; nat_cases];
    try solve [intros k g Hin'; in_cases; eauto with datatypes];
    try solve [intros k g Hin'; in_cases; eauto; rewrite Hf; reflexivity].
Qed.

Lemma pool_submitted_app (tr1 tr2 : list event) :
  submitted (tr1 ++ tr2) = submitted tr1 ++ submitted tr2.
Proof.
  induction tr1 as [|ev tr1 IH]; [reflexivity|].
  destruct ev; simpl; rewrite ?IH; reflexivity.
Qed.

Lemma sound_run (tr : list event) :
  forall (ops : list operation) (s : t),
  sound ops s -> sound (ops ++ submitted tr) (run s tr).
Proof.
  induction tr as [|ev tr IH]; intros ops s Hs.
  - simpl. rewrite app_nil_r. exact Hs.
  - change (run s (ev :: tr)) with (run (step s ev) tr).
    destruct ev as [f|id|]; simpl submitted.
    + replace (ops ++ f :: submitted tr) with ((ops ++ [f]) ++ submitted tr)
        by (rewrite <- app_assoc; reflexivity).
      apply IH, sound_add, Hs.
    + apply IH, sound_settle, Hs.
    + apply IH, sound_resume, Hs.
Qed.

Lemma sound_reachable (m : Z) (tr : list event) :
  sound (submitted tr) (run (fresh m) tr).
Proof. exact (sound_run tr (sound_fresh m)). Qed.

(** *** The limit never changes, and no activation is left behind *)

Lemma maxConcurrent_step (s : t) (ev : event) :
  maxConcurrent (step s ev) = maxConcurrent s.
Proof.
  destruct ev as [f|id|]; simpl.
  - unfold add, launch, conclude, finally_block. simpl.
    destruct (Z.geb (running s) (maxConcurrent s)); [reflexivity|].
    destruct f; [destruct (queue s)|]; reflexivity.
  - unfold settle, conclude, finally_block.
    destruct (extract id (inflight s)) as [[o fl]|]; [|reflexivity].
    simpl. destruct (queue s); reflexivity.
  - unfold resume, launch, conclude, finally_block.
    destruct (woken s) as [|[id f] ws]; [reflexivity|].
    simpl. destruct f; [destruct (queue s)|]; reflexivity.
Qed.

Lemma maxConcurrent_run (tr : list event) :
  forall s, maxConcurrent (run s tr) = maxConcurrent s.
Proof.
  induction tr as [|ev tr IH]; intros s; [reflexivity|].
  change (run s (ev :: tr)) with (run (step s ev) tr).
  rewrite IH. apply maxConcurrent_step.
Qed.

Lemma busy_step (s : t) (ev : event) : busy s -> busy (step s ev).
Proof.
  unfold busy. intros Hb.
  destruct ev as [f|id|]; simpl.
  - unfold add, launch, conclude, finally_block.
    cbn [snd maxConcurrent running queue woken inflight calls started settled].
    destruct (Z.geb_spec (running s) (maxConcurrent s)) as [Hge|Hlt].
    + simpl. intros _. lia.
    + destruct f as [e|o]; [destruct (queue s) as [|w q]|]; simpl in *;
        intros Hne; try congruence.
      * assert (Hwq : w :: q <> []) by discriminate.
        specialize (Hb Hwq). rewrite length_app. simpl. lia.
      * specialize (Hb Hne). lia.
  - unfold settle, conclude, finally_block.
    destruct (extract id (inflight s)) as [[o fl]|]; [|exact Hb].
    destruct (queue s) as [|w q]; simpl in *; intros Hne; try congruence.
    assert (Hwq : w :: q <> []) by discriminate.
    specialize (Hb Hwq). rewrite length_app. simpl. lia.
  - unfold resume, launch, conclude, finally_block.
    destruct (woken s) as [|[id f] ws] eqn:Hws; [rewrite Hws; exact Hb|].
    destruct f as [e|o]; [destruct (queue s) as [|w q]|]; simpl in *;
      intros Hne; try congruence.
    + assert (Hwq : w :: q <> []) by discriminate.
      specialize (Hb Hwq). rewrite length_app. simpl in *. lia.
    + specialize (Hb Hne). lia.
Qed.

Lemma busy_run (tr : list event) : forall s, busy s -> busy (run s tr).
Proof.
  induction tr as [|ev tr IH]; intros s Hb; [exact Hb|].
  change (run s (ev :: tr)) with (run (step s ev) tr).
  apply IH, busy_step, Hb.
Qed.

Lemma busy_fresh (m : Z) : busy (fresh m).
Proof. unfold busy. simpl. congruence. Qed.

(** *** Letting everything complete *)

(** A turn is a step of the pool. *)
Lemma turn_step (s : t) : exists ev, submitted [ev] = [] /\ turn s = step s ev.
Proof.
  unfold turn. destruct (woken s) as [|w ws] eqn:Hw.
  - destruct (inflight s) as [|[id o] fl] eqn:Hi.
    + exists Resume. split; [reflexivity|].
      simpl. unfold resume. rewrite Hw. reflexivity.
    + exists (Settle id). split; reflexivity.
  - exists Resume. split; reflexivity.
Qed.

Lemma turn_sound (ops : list operation) (s : t) :
  sound ops s -> sound ops (turn s).
Proof.
  intros Hs. destruct (turn_step s) as (ev & Hev & ->).
  destruct ev as [f|id|]; try discriminate; simpl.
  - apply sound_settle, Hs.
  - apply sound_resume, Hs.
Qed.

Lemma turn_busy (s : t) : busy s -> busy (turn s).
Proof.
  intros Hb. destruct (turn_step s) as (ev & _ & ->). apply busy_step, Hb.
Qed.

Lemma turn_maxConcurrent (s : t) : maxConcurrent (turn s) = maxConcurrent s.
Proof.
  destruct (turn_step s) as (ev & _ & ->). apply maxConcurrent_step.
Qed.

Lemma turn_backlog (s : t) :
  woken s <> [] \/ inflight s <> [] -> backlog (turn s) < backlog s.
Proof.
  unfold turn, backlog. intros Hne.
  destruct (woken s) as [|[id f] ws] eqn:Hw.
  - destruct (inflight s) as [|[id o] fl] eqn:Hi; [destruct Hne; congruence|].
    unfold settle, conclude, finally_block. rewrite Hi, extract_head.
    destruct (queue s) as [|w q]; simpl; rewrite ?length_app, ?Hw; simpl; lia.
  - unfold resume, launch, conclude, finally_block. rewrite Hw.
    destruct f as [e|o]; [destruct (queue s) as [|w q]|];
      simpl; rewrite ?length_app; simpl; lia.
Qed.

Lemma turn_quiet (s : t) : woken s = [] -> inflight s = [] -> turn s = s.
Proof. unfold turn. intros -> ->. reflexivity. Qed.

Lemma finish_quiet_fix (n : nat) (s : t) :
  woken s = [] -> inflight s = [] -> finish n s = s.
Proof.
  intros Hw Hi. induction n as [|n IH]; simpl; [reflexivity|].
  rewrite (turn_quiet s Hw Hi). exact IH.
Qed.

Lemma finish_quiet (n : nat) :
  forall s, backlog s <= n -> woken (finish n s) = [] /\ inflight (finish n s) = [].
Proof.
  induction n as [|n IH]; intros s Hn.
  - unfold backlog in Hn. simpl.
    destruct (woken s), (inflight s); simpl in Hn; try lia. auto.
  - destruct (woken s) as [|w ws] eqn:Hw.
    + destruct (inflight s) as [|i fl] eqn:Hi.
      * rewrite (finish_quiet_fix (S n) s Hw Hi). auto.
      * simpl. apply IH.
        assert (backlog (turn s) < backlog s)
          by (apply turn_backlog; right; rewrite Hi; discriminate).
        lia.
    + simpl. apply IH.
      assert (backlog (turn s) < backlog s)
        by (apply turn_backlog; left; rewrite Hw; discriminate).
      lia.
Qed.

Lemma finish_sound (n : nat) :
  forall ops s, sound ops s -> sound ops (finish n s).
Proof.
  induction n as [|n IH]; intros ops s Hs; simpl; [exact Hs|].
  apply IH, turn_sound, Hs.
Qed.

Lemma finish_busy (n : nat) : forall s, busy s -> busy (finish n s).
Proof.
  induction n as [|n IH]; intros s Hs; simpl; [exact Hs|].
  apply IH, turn_busy, Hs.
Qed.

Lemma finish_maxConcurrent (n : nat) :
  forall s, maxConcurrent (finish n s) = maxConcurrent s.
Proof.
  induction n as [|n IH]; intros s; simpl; [reflexivity|].
  rewrite IH. apply turn_maxConcurrent.
Qed.

Lemma sound_backlog (ops : list operation) (s : t) :
  sound ops s -> backlog s <= 2 * List.length ops.
Proof.
  intros [Hc Hr Ht _ _ _ _ _ _ _ _]. unfold backlog. lia.
Qed.

Lemma handle_state_In (h : nat) (o : outcome) (l : list (nat * outcome)) :
  handle_state h l = Some o -> In (h, o) l.
Proof.
  induction l as [|[k p] l IH]; simpl; [discriminate|].
  destruct (Nat.eqb_spec h k) as [->|_].
  - intros H. inversion H. left. reflexivity.
  - intros H. right. apply IH, H.
Qed.

Lemma handle_state_settled (h : nat) (l : list (nat * outcome)) :
  1 <= occ h l -> exists o, handle_state h l = Some o.
Proof.
  induction l as [|[k p] l IH]; simpl; [lia|].
  destruct (Nat.eqb_spec h k) as [->|_].
  - intros _. exists p. reflexivity.
  - simpl. exact IH.
Qed.

(** With room for at least one task, a pool that is left to itself ends
    with nothing queued, woken or in flight, and every call settled. *)
Lemma pool_finish_complete (m : Z) (tr : list event) (n : nat) :
  (1 <= m)%Z -> 2 * List.length (submitted tr) <= n ->
  let s := finish n (run (fresh m) tr) in
  queue s = [] /\ woken s = [] /\ inflight s = [] /\ running s = 0%Z /\
  forall id f, nth_error (submitted tr) id = Some f ->
    start_count id s = 1 /\
    settle_count id (settled s) = 1 /\
    handle_state id (settled s) = Some (result_of f).
Proof.
  intros Hm Hn s.
  pose proof (sound_reachable m tr) as Hs0.
  pose proof (finish_sound n Hs0) as Hs. fold s in Hs.
  assert (Hb : busy s) by (apply finish_busy, busy_run, busy_fresh).
  assert (Hmax : maxConcurrent s = m).
  { unfold s. rewrite finish_maxConcurrent, maxConcurrent_run. reflexivity. }
  destruct (@finish_quiet n (run (fresh m) tr)) as [Hw Hi].
  { pose proof (sound_backlog Hs0). lia. }
  fold s in Hw, Hi.
  destruct Hs as [Hc Hr Ht _ Hp Hst _ _ _ _ Hse].
  rewrite Hi in Hr. simpl in Hr.
  assert (Hq : queue s = []).
  { destruct (queue s) as [|w q] eqn:Hq; [reflexivity|].
    unfold busy in Hb. rewrite Hq, Hw, Hr, Hmax in Hb. simpl in Hb.
    assert (w :: q <> []) by discriminate. specialize (Hb H). lia. }
  repeat split; auto.
  - specialize (Hst id). specialize (Hp id).
    rewrite Hq, Hw, Hi, Hc in Hp. rewrite Hi in Hst. simpl in *.
    assert (id < List.length (submitted tr)) by (apply nth_error_Some; congruence).
    unfold start_count. revert Hp. nat_tests.
  - specialize (Hp id). rewrite Hq, Hw, Hi, Hc in Hp. simpl in *.
    assert (id < List.length (submitted tr)) by (apply nth_error_Some; congruence).
    unfold settle_count. revert Hp. nat_tests.
  - specialize (Hp id). rewrite Hq, Hw, Hi, Hc in Hp. simpl in *.
    assert (id < List.length (submitted tr)) by (apply nth_error_Some; congruence).
    destruct (@handle_state_settled id (settled s)) as [o Ho].
    { revert Hp. nat_tests. }
    rewrite Ho. pose proof (Hse id o (handle_state_In _ _ Ho)) as Hres.
    rewrite H in Hres. simpl in Hres. congruence.
Qed.

End PoolSound.

(** ** PromisePool: the concurrency limit *)

Section PoolLimit.
Import PromisePool.

(** C1.  The number of concurrently running tasks is meant never to exceed
    maxConcurrent.  On a pool of limit 1, when a call of [add] runs between
    the completion of the running task and the continuation of the
    activation that this completion woke, both the new task and the woken
    one are started: two operations are in flight and [running] is 2. *)
Theorem pool_overtaking_exceeds_limit :
  maxConcurrent (run (fresh 1) Examples.overtaking) = 1%Z /\
  running (run (fresh 1) Examples.overtaking) = 2%Z /\
  inflight (run (fresh 1) Examples.overtaking)
    = [(2, Fulfilled (VString "c")); (1, Fulfilled (VString "b"))] /\
  map fst (started (run (fresh 1) Examples.overtaking)) = [0; 2; 1] /\
  ~ (running (run (fresh 1) Examples.overtaking)
     <= maxConcurrent (run (fresh 1) Examples.overtaking))%Z.
Proof.
  repeat split; try reflexivity.
  simpl. lia.
Qed.

(** C8.  A task is meant to be dequeued and started only while [running]
    is strictly below the limit.  After the overtaking above, with limit 1
    and two operations in flight, a further call parks D; the completion of
    B then takes D out of the queue although [running] is 1 after the
    decrement, not below the limit, and the continuation of D starts it
    with C still in flight. *)
Theorem pool_dequeues_at_limit :
  queue (run (fresh 1) (Examples.overtaking ++ [Add Examples.D]))
    = [(3, Examples.D)] /\
  running (run (fresh 1) (Examples.overtaking ++ [Add Examples.D])) = 2%Z /\
  queue (run (fresh 1) (Examples.overtaking ++ [Add Examples.D; Settle 1])) = [] /\
  woken (run (fresh 1) (Examples.overtaking ++ [Add Examples.D; Settle 1]))
    = [(3, Examples.D)] /\
  running (run (fresh 1) (Examples.overtaking ++ [Add Examples.D; Settle 1]))
    = maxConcurrent (run (fresh 1) (Examples.overtaking ++ [Add Examples.D; Settle 1])) /\
  inflight (run (fresh 1) (Examples.overtaking ++ [Add Examples.D; Settle 1; Resume]))
    = [(2, Fulfilled (VString "c")); (3, Fulfilled (VString "d"))] /\
  running (run (fresh 1) (Examples.overtaking ++ [Add Examples.D; Settle 1; Resume]))
    = 2%Z.
Proof.
  repeat split; reflexivity.
Qed.

(** The limit is kept by every trace in which no call of [add] runs
    between the wake-up of a parked activation and its continuation. *)
Lemma within_limit_step (s : t) (ev : event) :
  orderly s [ev] = true -> within_limit s -> within_limit (step s ev).
Proof.
  unfold within_limit. intros Hord Hin.
  destruct ev as [f|id|]; simpl in Hord |- *.
  - destruct (woken s) as [|w ws] eqn:Hw; [|discriminate].
    unfold add, launch, conclude, finally_block.
    cbn [snd maxConcurrent running queue woken inflight calls started settled].
    destruct (Z.geb_spec (running s) (maxConcurrent s)) as [Hge|Hlt].
    + simpl in *. exact Hin.
    + destruct f as [e|o]; [destruct (queue s) as [|q qs]|];
        simpl in *; intros H0; specialize (Hin H0); lia.
  - unfold settle, conclude, finally_block.
    destruct (extract id (inflight s)) as [[o fl]|]; [|exact Hin].
    destruct (queue s) as [|q qs]; simpl in *; intros H0; specialize (Hin H0);
      rewrite ?length_app; simpl; lia.
  - unfold resume, launch, conclude, finally_block.
    destruct (woken s) as [|[id f] ws] eqn:Hw; [rewrite Hw; exact Hin|].
    destruct f as [e|o]; [destruct (queue s) as [|q qs]|];
      simpl in *; intros H0; specialize (Hin H0);
      rewrite ?length_app; simpl; lia.
Qed.

Lemma orderly_cons (s : t) (ev : event) (tr : list event) :
  orderly s (ev :: tr) = orderly s [ev] && orderly (step s ev) tr.
Proof.
  destruct ev; cbn [orderly]; [destruct (woken s)| |]; reflexivity.
Qed.

Lemma within_limit_run (tr : list event) :
  forall s, orderly s tr = true -> within_limit s -> within_limit (run s tr).
Proof.
  induction tr as [|ev tr IH]; intros s Ho Hs; [exact Hs|].
  rewrite orderly_cons in Ho. apply andb_prop in Ho. destruct Ho as [Hev Htr].
  change (run s (ev :: tr)) with (run (step s ev) tr).
  apply IH; [exact Htr|]. apply within_limit_step; assumption.
Qed.

Lemma pool_limit_without_overtaking (m : Z) (tr : list event) :
  (0 <= m)%Z -> orderly (fresh m) tr = true ->
  (running (run (fresh m) tr) <= m)%Z.
Proof.
  intros Hm Hord.
  assert (Hstart : within_limit (fresh m)) by (unfold within_limit; simpl; lia).
  pose proof (within_limit_run tr Hord Hstart) as Hend.
  unfold within_limit in Hend. rewrite maxConcurrent_run in Hend. simpl in Hend.
  specialize (Hend Hm). lia.
Qed.

(** On such traces a completion that takes a waiter out of the queue
    leaves [running] strictly below the limit. *)
Lemma dequeue_below_limit_without_overtaking
    (m : Z) (tr : list event) (id : nat) :
  (0 <= m)%Z -> orderly (fresh m) tr = true ->
  queue (settle id (run (fresh m) tr)) <> queue (run (fresh m) tr) ->
  (running (settle id (run (fresh m) tr)) < m)%Z.
Proof.
  intros Hm Hord Hdeq.
  pose proof (pool_limit_without_overtaking tr Hm Hord) as Hlim.
  revert Hdeq. unfold settle, conclude, finally_block.
  destruct (extract id (inflight (run (fresh m) tr))) as [[o fl]|];
    [|congruence].
  destruct (queue (run (fresh m) tr)); simpl; intros _; lia.
Qed.

(** The second half of C8 holds: an activation in the queue has neither
    been started nor settled. *)
Lemma queued_not_started (m : Z) (tr : list event) (id : nat) (f : operation) :
  In (id, f) (queue (run (fresh m) tr)) ->
  start_count id (run (fresh m) tr) = 0 /\
  occ id (inflight (run (fresh m) tr)) = 0 /\
  settle_count id (settled (run (fresh m) tr)) = 0.
Proof.
  intros Hin. apply occ_In in Hin.
  destruct (sound_reachable m tr) as [_ _ _ _ Hp Hs _ _ _ _ _].
  specialize (Hp id). specialize (Hs id).
  unfold start_count, settle_count.
  destruct (Nat.ltb id (calls (run (fresh m) tr))); lia.
Qed.

(** *** A limit below 1 *)

Lemma idle_forever_step (m : Z) (s : t) (ev : event) :
  (m < 1)%Z -> idle_forever m s -> idle_forever m (step s ev).
Proof.
  intros Hm (Hmax & Hr & Hw & Hi & Hst & Hse).
  destruct ev as [f|id|]; simpl.
  - unfold add. rewrite Hr, Hmax.
    destruct (Z.geb_spec 0 m) as [_|Hlt]; [|lia].
    unfold idle_forever. simpl. repeat split; assumption.
  - unfold settle. rewrite Hi. simpl. unfold idle_forever. repeat split; assumption.
  - unfold resume. rewrite Hw. unfold idle_forever. repeat split; assumption.
Qed.

Lemma idle_forever_run (m : Z) (tr : list event) :
  (m < 1)%Z -> forall s, idle_forever m s -> idle_forever m (run s tr).
Proof.
  intros Hm. induction tr as [|ev tr IH]; intros s Hs; [exact Hs|].
  change (run s (ev :: tr)) with (run (step s ev) tr).
  apply IH, idle_forever_step; assumption.
Qed.

(** C2, as the code has it.  Constructing a pool with a limit below 1 does
    not fail: the constructor checks nothing and returns a pool that holds
    the given limit, with no task running and an empty queue. *)
Theorem constructor_accepts_any_limit (m : Z) :
  (m < 1)%Z ->
  constructor m = Normal (fresh m) /\
  (forall e : value, constructor m <> Throw e) /\
  maxConcurrent (fresh m) = m /\ running (fresh m) = 0%Z /\ queue (fresh m) = [].
Proof.
  intros _. repeat split; try reflexivity.
  intros e He. discriminate He.
Qed.

Lemma constructor_accepts_any_limit_witness :
  constructor 0 = Normal (fresh 0) /\ maxConcurrent (fresh 0) = 0%Z.
Proof.
  pose proof (@constructor_accepts_any_limit 0 eq_refl) as H.
  exact (conj (proj1 H) (proj1 (proj2 (proj2 H)))).
Defined.

(** C2 as stated fails: constructing a pool with limit 0 does not throw. *)
Lemma constructor_zero_does_not_fail :
  ~ (exists e : value, constructor 0 = Throw e).
Proof.
  intros [e He]. discriminate He.
Qed.

End PoolLimit.

(** ** PromisePool: completion of a task *)

Section PoolCompletion.
Import PromisePool.

Lemma extract_unique (A : Type) (k : nat) (a : A) (l : list (nat * A)) :
  In (k, a) l -> occ k l <= 1 -> exists r, extract k l = Some (a, r).
Proof.
  induction l as [|[k' b] l IH]; simpl; [tauto|].
  intros Hin Hocc.
  destruct (Nat.eqb_spec k k') as [->|Hne].
  - destruct Hin as [Hin|Hin].
    + inversion Hin; subst. exists l. reflexivity.
    + apply occ_In in Hin. lia.
  - destruct Hin as [Hin|Hin]; [inversion Hin; congruence|].
    destruct (IH Hin Hocc) as [r ->]. exists ((k', b) :: r). reflexivity.
Qed.

(** C10.  When the operation of a started task completes, fulfilled or
    rejected, [running] goes down by exactly one and exactly one queued
    waiter, the oldest, is woken if there is any; the promise returned by
    [add] settles as the operation did.  The completed activation is gone,
    so the same completion cannot run a second time.  An operation whose
    call throws goes through the same block at once: the counter is back
    to its value and the oldest waiter is woken.  At all times [running] is
    the number of operations called and not yet completed. *)
Theorem completion_frees_one_slot
    (m : Z) (tr : list event) (id : nat) (o : outcome) :
  In (id, o) (inflight (run (fresh m) tr)) ->
  (running (settle id (run (fresh m) tr)) = running (run (fresh m) tr) - 1)%Z /\
  queue (settle id (run (fresh m) tr)) = tl (queue (run (fresh m) tr)) /\
  woken (settle id (run (fresh m) tr))
    = woken (run (fresh m) tr) ++ firstn 1 (queue (run (fresh m) tr)) /\
  settled (settle id (run (fresh m) tr))
    = settled (run (fresh m) tr) ++ [(id, o)] /\
  occ id (inflight (settle id (run (fresh m) tr))) = 0 /\
  settle id (settle id (run (fresh m) tr)) = settle id (run (fresh m) tr) /\
  (forall (k : nat) (e : value) (s : t),
     running (launch k (SyncThrow e) s) = running s /\
     queue (launch k (SyncThrow e) s) = tl (queue s) /\
     woken (launch k (SyncThrow e) s) = woken s ++ firstn 1 (queue s)) /\
  running (run (fresh m) tr)
    = (Z.of_nat (List.length (started (run (fresh m) tr)))
       - Z.of_nat (List.length (settled (run (fresh m) tr))))%Z.
Proof.
  intros Hin.
  remember (run (fresh m) tr) as s eqn:Hs.
  assert (Hsound : sound (submitted tr) s) by (subst s; apply sound_reachable).
  pose proof Hsound as [_ Hr _ Hbal Hp _ _ _ _ _ _].
  assert (Hone : occ id (inflight s) <= 1).
  { specialize (Hp id). destruct (Nat.ltb id (calls s)); lia. }
  destruct (extract_unique _ _ _ Hin Hone) as [fl Hex].
  destruct (extract_occ _ _ Hex) as (Hocc & _ & _ & _).
  assert (Hgone : occ id fl = 0).
  { specialize (Hocc id). rewrite Nat.eqb_refl in Hocc. lia. }
  assert (Hshape : forall q, inflight (conclude id o (finally_block
            (Make (maxConcurrent s) (running s) q (woken s) fl
                  (calls s) (started s) (settled s)))) = fl)
    by (intros [|w q]; reflexivity).
  assert (Hsettle : settle id s = conclude id o (finally_block
            (Make (maxConcurrent s) (running s) (queue s) (woken s) fl
                  (calls s) (started s) (settled s))))
    by (unfold settle; rewrite Hex; reflexivity).
  repeat split.
  - rewrite Hsettle. unfold conclude, finally_block. simpl.
    destruct (queue s); reflexivity.
  - rewrite Hsettle. unfold conclude, finally_block. simpl.
    destruct (queue s); reflexivity.
  - rewrite Hsettle. unfold conclude, finally_block. simpl.
    destruct (queue s); simpl; rewrite ?app_nil_r; reflexivity.
  - rewrite Hsettle. unfold conclude, finally_block. simpl.
    destruct (queue s); reflexivity.
  - rewrite Hsettle, Hshape. exact Hgone.
  - rewrite Hsettle at 1. unfold settle at 1. rewrite Hshape.
    rewrite (extract_none _ _ Hgone). symmetry. exact Hsettle.
  - unfold launch, conclude, finally_block. simpl.
    destruct (queue s0); simpl; lia.
  - unfold launch, conclude, finally_block. simpl.
    destruct (queue s0); reflexivity.
  - unfold launch, conclude, finally_block. simpl.
    destruct (queue s0); simpl; rewrite ?app_nil_r; reflexivity.
  - lia.
Qed.

Lemma completion_frees_one_slot_witness :
  running (settle 0 (run (fresh 1) [Add Examples.A; Add Examples.B])) = 0%Z /\
  woken (settle 0 (run (fresh 1) [Add Examples.A; Add Examples.B]))
    = [(1, Examples.B)].
Proof.
  pose proof (@completion_frees_one_slot 1 [Add Examples.A; Add Examples.B]
                0 (Fulfilled (VString "a")) (or_introl eq_refl)) as H.
  exact (conj (proj1 H) (proj1 (proj2 (proj2 H)))).
Defined.

End PoolCompletion.

(** ** PromisePool: filling the pool *)

Section PoolAdmission.
Import PromisePool.

Lemma pool_number_occ (ops : list operation) :
  forall k id,
  occ id (number k ops) =
  if Nat.leb k id && Nat.ltb id (k + List.length ops) then 1 else 0.
Proof.
  induction ops as [|f ops IH]; intros k id; simpl.
  - nat_tests.
  - rewrite IH. nat_tests.
Qed.

Lemma pool_verdict_occ (ops : list operation) :
  forall k id, occ id (map verdict (number k ops)) = occ id (number k ops).
Proof.
  induction ops as [|f ops IH]; intros k id; simpl; [reflexivity|].
  rewrite IH. reflexivity.
Qed.

Lemma extract_some (A : Type) (k : nat) (l : list (nat * A)) :
  1 <= occ k l -> exists a r, extract k l = Some (a, r).
Proof.
  induction l as [|[k' b] l IH]; simpl; [lia|].
  destruct (Nat.eqb_spec k k') as [->|Hne]; intros H.
  - exists b, l. reflexivity.
  - destruct (IH H) as (a & r & ->). exists a, ((k', b) :: r). reflexivity.
Qed.

Lemma run_app (s : t) (tr1 tr2 : list event) :
  run s (tr1 ++ tr2) = run (run s tr1) tr2.
Proof. apply fold_left_app. Qed.

(** While there is room, each call of [add] with an operation that returns
    calls it at once. *)
Lemma fill (ops : list operation) :
  forall s,
  forallb is_async ops = true ->
  (running s + Z.of_nat (List.length ops) <= maxConcurrent s)%Z ->
  run s (map Add ops) =
  Make (maxConcurrent s) (running s + Z.of_nat (List.length ops)) (queue s)
       (woken s) (inflight s ++ map verdict (number (calls s) ops))
       (calls s + List.length ops) (started s ++ number (calls s) ops)
       (settled s).
Proof.
  induction ops as [|f ops IH]; intros s Ha Hroom.
  - destruct s. simpl. rewrite !app_nil_r, Z.add_0_r, Nat.add_0_r. reflexivity.
  - simpl in Ha. apply andb_prop in Ha. destruct Ha as [Hf Ha].
    destruct f as [e|o]; [discriminate|].
    change (run s (map Add (Async o :: ops)))
      with (run (snd (add (Async o) s)) (map Add ops)).
    rewrite IH; [|exact Ha|].
    + unfold add, launch.
      cbn [snd maxConcurrent running queue woken inflight calls started settled].
      destruct (Z.geb_spec (running s) (maxConcurrent s)) as [Hge|Hlt];
        [simpl List.length in Hroom; lia|].
      cbn [snd maxConcurrent running queue woken inflight calls started settled].
      rewrite <- !app_assoc. simpl.
      f_equal; lia.
    + unfold add, launch.
      cbn [snd maxConcurrent running queue woken inflight calls started settled].
      destruct (Z.geb_spec (running s) (maxConcurrent s)) as [Hge|Hlt];
        simpl List.length in Hroom; simpl; lia.
Qed.

Lemma pool_full (first : list operation) (last : operation) :
  forallb is_async first = true ->
  run (fresh (Z.of_nat (List.length first))) (map Add (first ++ [last])) =
  Make (Z.of_nat (List.length first)) (Z.of_nat (List.length first))
       [(List.length first, last)] [] (map verdict (number 0 first))
       (S (List.length first)) (number 0 first) [].
Proof.
  intros Ha. rewrite map_app, run_app, (@fill first); [|exact Ha|simpl; lia].
  simpl. unfold add.
  cbn [snd maxConcurrent running queue woken inflight calls started settled].
  destruct (Z.geb_spec (Z.of_nat (List.length first))
              (Z.of_nat (List.length first))) as [_|Hlt]; [|lia].
  reflexivity.
Qed.

Lemma held_step (n : nat) (s : t) (ev : event) :
  completes_below n [ev] = false -> held n s -> held n (step s ev).
Proof.
  intros Hev (Hmax & Hr & Hw & Hst & Hi).
  destruct ev as [f|id|]; simpl in *.
  - unfold add.
    cbn [snd maxConcurrent running queue woken inflight calls started settled].
    destruct (Z.geb_spec (running s) (maxConcurrent s)) as [_|Hlt]; [|lia].
    unfold held. simpl. repeat split; assumption.
  - rewrite orb_false_r in Hev. apply Nat.ltb_ge in Hev.
    unfold settle. rewrite (extract_none _ _ (Hi id Hev)).
    unfold held. repeat split; assumption.
  - unfold resume. rewrite Hw. unfold held. repeat split; assumption.
Qed.

Lemma completes_below_cons (n : nat) (ev : event) (tr : list event) :
  completes_below n (ev :: tr) = completes_below n [ev] || completes_below n tr.
Proof.
  destruct ev; simpl; rewrite ?orb_false_r; reflexivity.
Qed.

Lemma held_run (n : nat) (tr : list event) :
  forall s, completes_below n tr = false -> held n s -> held n (run s tr).
Proof.
  induction tr as [|ev tr IH]; intros s Htr Hs; [exact Hs|].
  rewrite completes_below_cons in Htr. apply orb_false_elim in Htr.
  destruct Htr as [Hev Htr].
  change (run s (ev :: tr)) with (run (step s ev) tr).
  apply IH; [exact Htr|]. apply held_step; assumption.
Qed.

(** C7.  When maxConcurrent + 1 long-running tasks are submitted to a new
    pool, each of the first maxConcurrent is called within its own [add]
    call; the last one is left in the queue, not started.  Whatever happens
    next, it is not started as long as none of the first maxConcurrent has
    completed; when one of them completes it is woken, and its continuation
    starts it. *)
Theorem pool_queues_the_extra_task (first : list operation) (last : operation) :
  forallb is_async first = true ->
  (forall k,
     started (run (fresh (Z.of_nat (List.length first)))
                  (map Add (firstn k first)))
     = number 0 (firstn k first)) /\
  started (run (fresh (Z.of_nat (List.length first))) (map Add (first ++ [last])))
    = number 0 first /\
  queue (run (fresh (Z.of_nat (List.length first))) (map Add (first ++ [last])))
    = [(List.length first, last)] /\
  (forall tr,
     completes_below (List.length first) tr = false ->
     start_count (List.length first)
       (run (fresh (Z.of_nat (List.length first)))
            (map Add (first ++ [last]) ++ tr)) = 0) /\
  (forall i,
     i < List.length first ->
     woken (run (fresh (Z.of_nat (List.length first)))
                (map Add (first ++ [last]) ++ [Settle i]))
       = [(List.length first, last)] /\
     started (run (fresh (Z.of_nat (List.length first)))
                  (map Add (first ++ [last]) ++ [Settle i]))
       = number 0 first /\
     started (run (fresh (Z.of_nat (List.length first)))
                  (map Add (first ++ [last]) ++ [Settle i; Resume]))
       = number 0 first ++ [(List.length first, last)]).
Proof.
  intros Ha.
  pose proof (@pool_full first last Ha) as Hfull.
  remember (List.length first) as n eqn:Hn.
  repeat split.
  - intros k. rewrite fill.
    + reflexivity.
    + rewrite <- (firstn_skipn k first), forallb_app in Ha.
      apply andb_prop in Ha. tauto.
    + unfold fresh. cbn [running maxConcurrent].
      rewrite length_firstn. lia.
  - rewrite Hfull. reflexivity.
  - rewrite Hfull. reflexivity.
  - intros tr Htr. rewrite run_app. unfold start_count.
    assert (Hheld : held n (run (fresh (Z.of_nat n)) (map Add (first ++ [last])))).
    { rewrite Hfull. unfold held. simpl. repeat split; auto.
      - rewrite pool_number_occ, <- Hn. nat_tests.
      - intros id Hid. rewrite pool_verdict_occ, pool_number_occ, <- Hn. nat_tests. }
    destruct (held_run tr Htr Hheld) as (_ & _ & _ & Hst & _). exact Hst.
  - rewrite run_app, Hfull. simpl. unfold settle. simpl.
    destruct (@extract_some _ i (map verdict (number 0 first))) as (o & fl & Hex).
    { rewrite pool_verdict_occ, pool_number_occ, <- Hn. nat_tests. }
    rewrite Hex. reflexivity.
  - rewrite run_app, Hfull. simpl. unfold settle. simpl.
    destruct (@extract_some _ i (map verdict (number 0 first))) as (o & fl & Hex).
    { rewrite pool_verdict_occ, pool_number_occ, <- Hn. nat_tests. }
    rewrite Hex. reflexivity.
  - rewrite run_app, Hfull. simpl. unfold settle. simpl.
    destruct (@extract_some _ i (map verdict (number 0 first))) as (o & fl & Hex).
    { rewrite pool_verdict_occ, pool_number_occ, <- Hn. nat_tests. }
    rewrite Hex. unfold resume, launch. simpl. destruct last; reflexivity.
Qed.

Lemma pool_queues_the_extra_task_witness :
  queue (run (fresh 2) [Add Examples.A; Add Examples.B; Add Examples.C])
    = [(2, Examples.C)] /\
  started (run (fresh 2) [Add Examples.A; Add Examples.B; Add Examples.C;
                          Settle 1; Resume])
    = [(0, Examples.A); (1, Examples.B); (2, Examples.C)].
Proof.
  pose proof (@pool_queues_the_extra_task [Examples.A; Examples.B] Examples.C
                eq_refl) as H.
  split.
  - exact (proj1 (proj2 (proj2 H))).
  - exact (proj2 (proj2 (proj2 (proj2 (proj2 (proj2 H))) 1 (le_n 2)))).
Defined.

End PoolAdmission.

(** ** Failures stay local; submission returns at once *)

Section Submission.

Lemma queue_handle_own (tr : list PromiseQueue.event) (h : nat)
    (f : operation) (o : outcome) :
  nth_error (PromiseQueue.submitted tr) h = Some f ->
  handle_state h (PromiseQueue.settled
                    (PromiseQueue.run PromiseQueue.constructor tr)) = Some o ->
  o = result_of f.
Proof.
  intros Hf Ho.
  destruct (shape_reachable tr)
    as (pre & post & Hops & _ & _ & _ & Hse & _ & _ & _).
  pose proof (handle_state_app h
                (PromiseQueue.settled (PromiseQueue.run PromiseQueue.constructor tr))
                (PromiseQueue.awaiting (PromiseQueue.run PromiseQueue.constructor tr)))
    as Ha.
  rewrite Ho, Hse, handle_state_verdicts in Ha. simpl in Ha.
  rewrite Nat.sub_0_r in Ha.
  destruct (nth_error pre h) as [g|] eqn:Hg; [|discriminate].
  assert (Hlt : h < List.length pre) by (apply nth_error_Some; congruence).
  rewrite Hops, nth_error_app1, Hg in Hf by exact Hlt.
  inversion Hf; subst. inversion Ha. reflexivity.
Qed.

Lemma queue_handle_final (tr : list PromiseQueue.event) (h n : nat)
    (f : operation) :
  nth_error (PromiseQueue.submitted tr) h = Some f ->
  List.length (PromiseQueue.submitted tr) <= n ->
  handle_state h (PromiseQueue.settled
                    (PromiseQueue.finish n
                       (PromiseQueue.run PromiseQueue.constructor tr)))
  = Some (result_of f).
Proof.
  intros Hf Hn.
  destruct (finish_complete tr Hn) as (_ & Hse & _).
  rewrite Hse, handle_state_verdicts. simpl.
  rewrite Nat.sub_0_r, Hf. reflexivity.
Qed.

Lemma pool_handle_own (m : Z) (tr : list PromisePool.event) (h : nat)
    (f : operation) (o : outcome) :
  nth_error (PromisePool.submitted tr) h = Some f ->
  handle_state h (PromisePool.settled (PromisePool.run (PromisePool.fresh m) tr))
    = Some o ->
  o = result_of f.
Proof.
  intros Hf Ho.
  destruct (sound_reachable m tr) as [_ _ _ _ _ _ _ _ _ _ Hse].
  specialize (Hse h o (handle_state_In _ _ Ho)).
  rewrite Hf in Hse. simpl in Hse. congruence.
Qed.

(** C4.  A task whose operation fails does not stop the scheduler nor the
    tasks queued behind it.  Take, among the submitted tasks, one whose
    operation fails with [e] and a later one whose operation succeeds with
    [v].  On a PromiseQueue, and on a PromisePool of limit 1, once the
    operations have completed the handle of the first is rejected with [e]
    and the handle of the second is fulfilled with [v]; and at no moment
    does the second handle hold anything but [v]. *)
Theorem failure_stays_local
    (e v : value) (i j : nat) (fi fj : operation) :
  i < j -> result_of fi = Rejected e -> result_of fj = Fulfilled v ->
  (forall (tr : list PromiseQueue.event) (n : nat),
     nth_error (PromiseQueue.submitted tr) i = Some fi ->
     nth_error (PromiseQueue.submitted tr) j = Some fj ->
     List.length (PromiseQueue.submitted tr) <= n ->
     handle_state i (PromiseQueue.settled
        (PromiseQueue.finish n (PromiseQueue.run PromiseQueue.constructor tr)))
       = Some (Rejected e) /\
     handle_state j (PromiseQueue.settled
        (PromiseQueue.finish n (PromiseQueue.run PromiseQueue.constructor tr)))
       = Some (Fulfilled v) /\
     (forall o,
        handle_state j (PromiseQueue.settled
           (PromiseQueue.run PromiseQueue.constructor tr)) = Some o ->
        o = Fulfilled v)) /\
  (forall (tr : list PromisePool.event) (n : nat),
     nth_error (PromisePool.submitted tr) i = Some fi ->
     nth_error (PromisePool.submitted tr) j = Some fj ->
     2 * List.length (PromisePool.submitted tr) <= n ->
     handle_state i (PromisePool.settled
        (PromisePool.finish n (PromisePool.run (PromisePool.fresh 1) tr)))
       = Some (Rejected e) /\
     handle_state j (PromisePool.settled
        (PromisePool.finish n (PromisePool.run (PromisePool.fresh 1) tr)))
       = Some (Fulfilled v) /\
     (forall o,
        handle_state j (PromisePool.settled
           (PromisePool.run (PromisePool.fresh 1) tr)) = Some o ->
        o = Fulfilled v)).
Proof.
  intros _ Hi Hj. split.
  - intros tr n Hfi Hfj Hn. repeat split.
    + rewrite <- Hi. apply queue_handle_final; assumption.
    + rewrite <- Hj. apply queue_handle_final; assumption.
    + intros o Ho. rewrite <- Hj. exact (queue_handle_own tr j Hfj Ho).
  - intros tr n Hfi Hfj Hn.
    destruct (@pool_finish_complete 1 tr n (Z.le_refl 1) Hn)
      as (_ & _ & _ & _ & Hall).
    repeat split.
    + rewrite <- Hi. apply (Hall i fi Hfi).
    + rewrite <- Hj. apply (Hall j fj Hfj).
    + intros o Ho. rewrite <- Hj. exact (pool_handle_own 1 tr j Hfj Ho).
Qed.

Lemma failure_stays_local_witness :
  handle_state 1 (PromiseQueue.settled
     (PromiseQueue.finish 2
        (PromiseQueue.run PromiseQueue.constructor
           [PromiseQueue.Enqueue (Async (Rejected (VString "boom")));
            PromiseQueue.Enqueue (Async (Fulfilled (VNumber 7)))])))
    = Some (Fulfilled (VNumber 7)) /\
  handle_state 1 (PromisePool.settled
     (PromisePool.finish 4
        (PromisePool.run (PromisePool.fresh 1)
           [PromisePool.Add (Async (Rejected (VString "boom")));
            PromisePool.Add (Async (Fulfilled (VNumber 7)))])))
    = Some (Fulfilled (VNumber 7)).
Proof.
  pose proof (@failure_stays_local (VString "boom") (VNumber 7) 0 1
                (Async (Rejected (VString "boom")))
                (Async (Fulfilled (VNumber 7)))
                (le_n 1) eq_refl eq_refl) as [Hq Hp].
  split.
  - exact (proj1 (proj2 (Hq [PromiseQueue.Enqueue (Async (Rejected (VString "boom")));
                             PromiseQueue.Enqueue (Async (Fulfilled (VNumber 7)))]
                            2 eq_refl eq_refl (le_n 2)))).
  - exact (proj1 (proj2 (Hp [PromisePool.Add (Async (Rejected (VString "boom")));
                             PromisePool.Add (Async (Fulfilled (VNumber 7)))]
                            4 eq_refl eq_refl (le_n 4)))).
Defined.

(** On a PromiseQueue, submission wraps the operation in a task, puts the
    task in the queue, attempts admission at once and returns the handle of
    the task without waiting.  [enqueue] returns a promise that did not
    exist before and is the composition of the push at the tail of the
    queue with [processQueue]: on a busy queue the task stays at the tail
    and nothing is called; on an idle queue, which is empty, the task is
    taken out and its operation called within the call of [enqueue].  The
    returned promise is still pending on return when the operation returns
    something to await. *)
Lemma enqueue_returns_at_once (tr : list PromiseQueue.event) (f : operation) :
  let s := PromiseQueue.run PromiseQueue.constructor tr in
  let h := PromiseQueue.promises s in
  let s' := snd (PromiseQueue.enqueue f s) in
  fst (PromiseQueue.enqueue f s) = h /\
  settle_count h (PromiseQueue.settled s) = 0 /\
  PromiseQueue.start_count h s = 0 /\
  s' = PromiseQueue.processQueue (PromiseQueue.push f s) /\
  PromiseQueue.queue (PromiseQueue.push f s)
    = PromiseQueue.queue s ++ [PromiseQueue.Entry f h] /\
  (PromiseQueue.processing s = true ->
     PromiseQueue.queue s' = PromiseQueue.queue s ++ [PromiseQueue.Entry f h] /\
     PromiseQueue.started s' = PromiseQueue.started s) /\
  (PromiseQueue.processing s = false ->
     PromiseQueue.queue s = [] /\ PromiseQueue.queue s' = [] /\
     PromiseQueue.started s'
       = PromiseQueue.started s ++ [PromiseQueue.Entry f h]) /\
  (is_async f = true -> handle_state h (PromiseQueue.settled s') = None).
Proof.
  intros s h s'.
  destruct (shape_reachable tr)
    as (pre & post & Hops & Hq & Hp & Hst & Hse & Hlen & Hflag & Hempty).
  fold s in Hq, Hp, Hst, Hse, Hlen, Hflag, Hempty.
  assert (Hfresh : settle_count h (PromiseQueue.settled s) = 0).
  { pose proof (settle_count_app h (PromiseQueue.settled s)
                  (PromiseQueue.awaiting s)) as Hc.
    rewrite Hse, settle_count_verdicts in Hc. unfold h in *.
    rewrite Hp, Hops, length_app in *. revert Hc. nat_tests. }
  assert (Hpending : handle_state h (PromiseQueue.settled s) = None)
    by (apply handle_state_count, Hfresh).
  split; [reflexivity|]. split; [exact Hfresh|].
  split.
  { unfold PromiseQueue.start_count, h.
    rewrite Hst, start_count_number, Hp, Hops, length_app. nat_tests. }
  split; [reflexivity|]. split; [reflexivity|].
  unfold s', PromiseQueue.enqueue, PromiseQueue.processQueue, PromiseQueue.push.
  cbn [snd PromiseQueue.processing PromiseQueue.queue PromiseQueue.awaiting
       PromiseQueue.promises PromiseQueue.started PromiseQueue.settled].
  destruct (PromiseQueue.processing s) eqn:Hproc.
  + split; [intros _; split; reflexivity|].
    split; [discriminate|]. intros _. exact Hpending.
  + destruct (PromiseQueue.awaiting s); [|discriminate].
    rewrite Hq, (Hempty eq_refl).
    split; [discriminate|].
    split.
    * intros _. destruct f; repeat split; reflexivity.
    * intros Hf. destruct f as [e|o]; [discriminate|]. exact Hpending.
Qed.

(** On a PromisePool too the call returns at once, with a promise that did
    not exist before and that is still pending on return when the
    operation returns something to await. *)
Lemma add_returns_at_once (m : Z) (tr : list PromisePool.event) (f : operation) :
  let s := PromisePool.run (PromisePool.fresh m) tr in
  let id := PromisePool.calls s in
  fst (PromisePool.add f s) = id /\
  settle_count id (PromisePool.settled s) = 0 /\
  PromisePool.start_count id s = 0 /\
  (is_async f = true ->
   handle_state id (PromisePool.settled (snd (PromisePool.add f s))) = None).
Proof.
  intros s id.
  destruct (sound_reachable m tr) as [Hc _ _ _ Hp Hs _ _ _ _ _].
  fold s in Hc, Hp, Hs.
  assert (Hnone : PromisePool.start_count id s = 0 /\
                  settle_count id (PromisePool.settled s) = 0).
  { specialize (Hp id). specialize (Hs id).
    unfold PromisePool.start_count, settle_count, id in *.
    rewrite Nat.ltb_irrefl in Hp. lia. }
  destruct Hnone as [Hns Hnd].
  split; [reflexivity|]. split; [exact Hnd|]. split; [exact Hns|].
  intros Hf. destruct f as [e|o]; [discriminate|].
  unfold PromisePool.add, PromisePool.launch. simpl.
  destruct (Z.geb (PromisePool.running s) (PromisePool.maxConcurrent s));
    apply handle_state_count, Hnd.
Qed.

(** As long as no woken caller waits for its continuation, [add] does
    exactly what the specification asks of a submission: the state it
    leaves is the one obtained by putting the task at the tail of the queue
    and attempting admission. *)
Lemma add_as_specified_without_pending_wakeup
    (m : Z) (tr : list PromisePool.event) (f : operation) :
  PromisePool.woken (PromisePool.run (PromisePool.fresh m) tr) = [] ->
  PromisePool.add f (PromisePool.run (PromisePool.fresh m) tr)
  = PoolSpec.submit f (PromisePool.run (PromisePool.fresh m) tr).
Proof.
  intros Hw.
  assert (Hbusy : PromisePool.busy (PromisePool.run (PromisePool.fresh m) tr))
    by (apply busy_run, busy_fresh).
  remember (PromisePool.run (PromisePool.fresh m) tr) as s eqn:Hs.
  unfold PromisePool.busy in Hbusy. rewrite Hw in Hbusy. simpl in Hbusy.
  unfold PromisePool.add, PoolSpec.submit. f_equal.
  cbn [PromisePool.maxConcurrent PromisePool.running PromisePool.queue
       PromisePool.woken PromisePool.inflight PromisePool.calls
       PromisePool.started PromisePool.settled PoolSpec.admission].
  destruct (Z.geb_spec (PromisePool.running s) (PromisePool.maxConcurrent s))
    as [Hfull|Hroom];
    destruct (Z.ltb_spec (PromisePool.running s) (PromisePool.maxConcurrent s))
    as [Hlt|Hge]; try lia.
  - reflexivity.
  - destruct (PromisePool.queue s) as [|w q] eqn:Hq.
    + simpl. unfold PromisePool.launch, PromisePool.conclude,
        PromisePool.finally_block, PoolSpec.start. simpl.
      destruct f; reflexivity.
    + exfalso. assert (Hne : w :: q <> []) by discriminate.
      specialize (Hbusy Hne). lia.
Qed.

(** C6.  Submission is meant to put the task in the queue and then attempt
    admission, which takes the head of the queue.  [enqueue] of a
    PromiseQueue does so in every state, and [add] of a PromisePool does so
    as long as no woken caller waits for its continuation (the two lemmas
    above).  On a pool of limit 1 with A completed, B woken and D queued,
    [add(C)] does not put C in the queue and does not admit the head: it
    calls C at once, ahead of B and D, where the specified submission
    starts D and leaves C at the tail; the continuation of B then brings
    [running] to 2. *)
Theorem pool_add_passes_waiting_callers :
  PromisePool.running (PromisePool.run (PromisePool.fresh 1) MoreExamples.jumping)
    = 0%Z /\
  PromisePool.woken (PromisePool.run (PromisePool.fresh 1) MoreExamples.jumping)
    = [(1, Examples.B)] /\
  PromisePool.queue (PromisePool.run (PromisePool.fresh 1) MoreExamples.jumping)
    = [(2, Examples.D)] /\
  PromisePool.started
    (snd (PromisePool.add Examples.C
            (PromisePool.run (PromisePool.fresh 1) MoreExamples.jumping)))
    = [(0, Examples.A); (3, Examples.C)] /\
  PromisePool.queue
    (snd (PromisePool.add Examples.C
            (PromisePool.run (PromisePool.fresh 1) MoreExamples.jumping)))
    = [(2, Examples.D)] /\
  PromisePool.started
    (snd (PoolSpec.submit Examples.C
            (PromisePool.run (PromisePool.fresh 1) MoreExamples.jumping)))
    = [(0, Examples.A); (2, Examples.D)] /\
  PromisePool.queue
    (snd (PoolSpec.submit Examples.C
            (PromisePool.run (PromisePool.fresh 1) MoreExamples.jumping)))
    = [(3, Examples.C)] /\
  PromisePool.running
    (PromisePool.run (PromisePool.fresh 1)
       (MoreExamples.jumping ++ [PromisePool.Add Examples.C; PromisePool.Resume]))
    = 2%Z.
Proof.
  repeat split; reflexivity.
Qed.

End Submission.

(** * Further properties of the file's code *)

(** ** retryOperation *)

Section RetryFacts.
Import Retry.

Variable operation : nat -> operation.
Variables retries delay : Z.



Lemma calls_failures (k : nat) : calls (failures k delay) = k.
Proof. induction k as [|k IH]; [reflexivity|]. unfold calls in *. simpl. rewrite IH. reflexivity. Qed.

Lemma sleeps_failures (k : nat) : sleeps (failures k delay) = k.
Proof. induction k as [|k IH]; [reflexivity|]. unfold sleeps in *. simpl. rewrite IH. reflexivity. Qed.

Lemma failures_snoc (k : nat) :
  failures k delay ++ [Call; Sleep delay] = failures (S k) delay.
Proof. induction k as [|k IH]; [reflexivity|]. simpl. rewrite IH. reflexivity. Qed.

(** [k] failing rounds, none of them the last, lead to round [i + k]. *)
Lemma loop_failures (k : nat) :
  forall (fuel : nat) (i : Z) (log : list action),
  (0 <= i)%Z -> (i + Z.of_nat k <= retries - 1)%Z ->
  (forall j, j < k -> fails (operation (Z.to_nat i + j)) = true) ->
  loop (k + fuel) operation retries delay i log
  = loop fuel operation retries delay (i + Z.of_nat k) (log ++ failures k delay).
Proof.
  induction k as [|k IH]; intros fuel i log Hi Hk Hfail.
  - simpl. rewrite Z.add_0_r, app_nil_r. reflexivity.
  - change (S k + fuel) with (S (k + fuel)). cbn [loop].
    destruct (Z.ltb_spec i retries) as [_|Hge]; [|lia].
    pose proof (Hfail 0 (Nat.lt_0_succ k)) as H0.
    rewrite Nat.add_0_r in H0. unfold fails in H0.
    destruct (result_of (operation (Z.to_nat i))) as [v|e]; [discriminate|].
    destruct (Z.eqb_spec i (retries - 1)) as [Heq|_]; [lia|].
    rewrite IH.
    + replace (i + 1 + Z.of_nat k)%Z with (i + Z.of_nat (S k))%Z by lia.
      rewrite <- app_assoc. reflexivity.
    + lia.
    + lia.
    + intros j Hj. replace (Z.to_nat (i + 1) + j) with (Z.to_nat i + S j) by lia.
      apply Hfail. lia.
Qed.

(** X1.  With [retries] zero or negative the operation is never called and
    the returned promise is fulfilled with [undefined]: the loop body never
    runs and no error is reported. *)
Theorem retry_without_rounds (d : option Z) :
  (retries <= 0)%Z ->
  retryOperation operation (Some retries) d = Some (Fulfilled VUndefined, []).
Proof.
  intros Hr. unfold retryOperation. cbn [given loop].
  destruct (Z.ltb_spec 0 retries) as [Hlt|_]; [lia|reflexivity].
Qed.

(** X2.  If the first [k] attempts fail and attempt [k + 1] succeeds with
    [v], with [k + 1 <= retries], the returned promise is fulfilled with
    [v] after exactly [k + 1] calls, each failed one followed by a wait of
    [delay] milliseconds; later behaviour of the operation is irrelevant. *)
Theorem retry_first_success (k : nat) (v : value) :
  (Z.of_nat k < retries)%Z ->
  (forall j, j < k -> fails (operation j) = true) ->
  result_of (operation k) = Fulfilled v ->
  retryOperation operation (Some retries) (Some delay)
  = Some (Fulfilled v, failures k delay ++ [Call]).
Proof.
  intros Hk Hfail Hv. unfold retryOperation. cbn [given].
  replace (S (Z.to_nat retries)) with (k + S (Z.to_nat retries - k)) by lia.
  rewrite loop_failures; [|lia|lia|exact Hfail].
  cbn [loop]. simpl (0 + Z.of_nat k)%Z.
  destruct (Z.ltb_spec (Z.of_nat k) retries) as [_|Hge]; [|lia].
  rewrite Nat2Z.id, Hv. reflexivity.
Qed.

(** X3.  If all of the first [retries] attempts fail ([retries >= 1]), the
    returned promise is rejected with the error of the last attempt, after
    exactly [retries] calls and [retries - 1] waits: there is no wait after
    the last failure, and earlier errors are dropped. *)
Theorem retry_exhausted (e : value) :
  (1 <= retries)%Z ->
  (forall j, j < Z.to_nat retries -> fails (operation j) = true) ->
  result_of (operation (Z.to_nat retries - 1)) = Rejected e ->
  retryOperation operation (Some retries) (Some delay)
  = Some (Rejected e, failures (Z.to_nat retries - 1) delay ++ [Call]).
Proof.
  intros Hr Hfail He. unfold retryOperation. cbn [given].
  replace (S (Z.to_nat retries)) with ((Z.to_nat retries - 1) + 2) by lia.
  rewrite loop_failures; [|lia|lia|intros j Hj; apply Hfail; lia].
  cbn [loop]. simpl (0 + Z.of_nat (Z.to_nat retries - 1))%Z.
  destruct (Z.ltb_spec (Z.of_nat (Z.to_nat retries - 1)) retries) as [_|Hge]; [|lia].
  rewrite Nat2Z.id, He.
  destruct (Z.eqb_spec (Z.of_nat (Z.to_nat retries - 1)) (retries - 1)) as [_|Hne];
    [reflexivity|lia].
Qed.


End RetryFacts.

Section RetryBounds.
Import Retry.


End RetryBounds.

Section RetryWitnesses.
Import Retry.

Lemma retry_without_rounds_witness :
  retryOperation MoreExamples.hopeless (Some 0%Z) None
  = Some (Fulfilled VUndefined, []).
Proof.
  exact (@retry_without_rounds MoreExamples.hopeless 0%Z None (Z.le_refl 0)).
Defined.

Lemma retry_first_success_witness :
  retryOperation MoreExamples.flaky (Some 3%Z) (Some 500%Z)
  = Some (Fulfilled (VNumber 42),
          [Call; Sleep 500; Call; Sleep 500; Call]).
Proof.
  apply (@retry_first_success MoreExamples.flaky 3%Z 500%Z 2 (VNumber 42)).
  - reflexivity.
  - intros [|[|j]] Hj; [reflexivity|reflexivity|lia].
  - reflexivity.
Defined.

Lemma retry_exhausted_witness :
  retryOperation MoreExamples.hopeless (Some 2%Z) (Some 10%Z)
  = Some (Rejected (VNumber 1), [Call; Sleep 10; Call]).
Proof.
  apply (@retry_exhausted MoreExamples.hopeless 2%Z 10%Z (VNumber 1)).
  - lia.
  - intros j _. reflexivity.
  - reflexivity.
Defined.

End RetryWitnesses.

(** ** promisify *)

Section PromisifyFacts.
Import Promisify.






End PromisifyFacts.

(** ** errorRecovery *)

Section RecoveryFacts.
Import Recovery.

(** X7.  [errorRecovery] calls the fallback exactly when the risky
    operation fails with a NetworkError, and then the caller gets exactly
    what the fallback gives, error included; in every other case the
    fallback is not called and the caller gets what the risky operation
    gave, an error of another kind being rethrown unchanged.  The risky
    operation is called exactly once, first. *)
Theorem errorRecovery_fallback_only_on_network_error
    (isNetworkError : value -> bool) (riskyOperation fallbackOperation : operation) :
  (In Fallback (snd (errorRecovery isNetworkError riskyOperation fallbackOperation))
   <-> exists e, result_of riskyOperation = Rejected e /\ isNetworkError e = true) /\
  (In Fallback (snd (errorRecovery isNetworkError riskyOperation fallbackOperation)) ->
   errorRecovery isNetworkError riskyOperation fallbackOperation
   = (result_of fallbackOperation, [Risky; Fallback])) /\
  (~ In Fallback (snd (errorRecovery isNetworkError riskyOperation fallbackOperation)) ->
   errorRecovery isNetworkError riskyOperation fallbackOperation
   = (result_of riskyOperation, [Risky])).
Proof.
  unfold errorRecovery.
  destruct (result_of riskyOperation) as [v|e] eqn:Hr.
  - simpl. split; [|split].
    + split; [intros [H|[]]; discriminate|intros (e & He & _); discriminate].
    + intros [H|[]]. discriminate.
    + reflexivity.
  - destruct (isNetworkError e) eqn:Hn; simpl; split; [| split | | split].
    + split; [intros _; exists e; split; [reflexivity|exact Hn]|auto].
    + reflexivity.
    + intros H. exfalso. apply H. right. left. reflexivity.
    + split; [intros [H|[]]; discriminate|].
      intros (e' & He' & Hn'). inversion He'; subst. congruence.
    + intros [H|[]]. discriminate.
    + reflexivity.
Qed.

End RecoveryFacts.

(** ** PromiseQueue: delivery order, blocking, synchronous failure *)

Section QueueMore.
Import PromiseQueue.

Lemma prefix_of_seq (l1 l2 : list nat) :
  forall a n, l1 ++ l2 = seq a n -> l1 = seq a (List.length l1).
Proof.
  induction l1 as [|x l1 IH]; intros a n H; [reflexivity|].
  destruct n as [|n]; simpl in H; [discriminate|].
  inversion H; subst. simpl. f_equal. apply (IH (S a) n). assumption.
Qed.

(** X8.  The handles of a PromiseQueue are settled in submission order:
    at every moment the promises that had their resolve / reject call are
    the first ones returned, in the order they were returned. *)
Theorem queue_settles_in_submission_order (tr : list event) :
  map fst (settled (run constructor tr))
  = seq 0 (List.length (settled (run constructor tr))).
Proof.
  destruct (shape_reachable tr)
    as (pre & post & _ & _ & _ & _ & Hse & _).
  apply (f_equal (map fst)) in Hse.
  rewrite map_app, map_map in Hse. cbn [verdict fst] in Hse.
  change (map (fun e => resolvers e) (number 0 pre))
    with (map resolvers (number 0 pre)) in Hse.
  rewrite map_resolvers_number in Hse.
  rewrite <- (length_map fst). exact (prefix_of_seq _ _ _ _ Hse).
Qed.

Lemma queue_run_app (s : t) (tr1 tr2 : list event) :
  run s (tr1 ++ tr2) = run (run s tr1) tr2.
Proof. apply fold_left_app. Qed.

Lemma enqueue_while_processing (fs : list operation) :
  forall s, processing s = true ->
  run s (map Enqueue fs)
  = Make (queue s ++ number (promises s) fs) true (awaiting s)
         (promises s + List.length fs) (started s) (settled s).
Proof.
  induction fs as [|f fs IH]; intros s Hp.
  - destruct s. simpl in *. subst. rewrite app_nil_r, Nat.add_0_r. reflexivity.
  - change (run s (map Enqueue (f :: fs)))
      with (run (snd (enqueue f s)) (map Enqueue fs)).
    unfold enqueue, processQueue, push. cbn [snd processing]. rewrite Hp.
    rewrite IH by reflexivity.
    cbn [queue awaiting promises started settled].
    rewrite <- app_assoc. simpl. f_equal. lia.
Qed.

(** X9.  While the operation at the head is pending, nothing behind it
    starts: however many tasks are enqueued, none of their operations is
    called and no handle is settled; they pile up in the queue in
    submission order.  An operation that never completes blocks the queue
    for good. *)
Theorem queue_blocked_by_pending_head (tr : list event) (fs : list operation) :
  awaiting (run constructor tr) <> [] ->
  started (run constructor (tr ++ map Enqueue fs)) = started (run constructor tr) /\
  settled (run constructor (tr ++ map Enqueue fs)) = settled (run constructor tr) /\
  awaiting (run constructor (tr ++ map Enqueue fs)) = awaiting (run constructor tr) /\
  queue (run constructor (tr ++ map Enqueue fs))
  = queue (run constructor tr)
    ++ number (promises (run constructor tr)) fs.
Proof.
  intros Hne.
  destruct (shape_reachable tr) as (_ & _ & _ & _ & _ & _ & _ & _ & Hflag & _).
  assert (Hp : processing (run constructor tr) = true).
  { rewrite Hflag. destruct (awaiting (run constructor tr)); congruence. }
  rewrite queue_run_app, (enqueue_while_processing fs _ Hp).
  repeat split; reflexivity.
Qed.

Lemma queue_blocked_by_pending_head_witness :
  started (run constructor ([Enqueue Examples.A]
                            ++ map Enqueue [Examples.B; Examples.C]))
  = [Entry Examples.A 0].
Proof.
  exact (proj1 (@queue_blocked_by_pending_head [Enqueue Examples.A]
                  [Examples.B; Examples.C]
                  (fun H => @nil_cons _ (0, Fulfilled (VString "a")) []
                              (eq_sym H)))).
Defined.



End QueueMore.

(** ** PromisePool: completion, limit and order when nothing overtakes *)

Section PoolMore.
Import PromisePool.

(** X11.  On a pool with room for at least one task, whatever calls were
    made and in whatever order the continuations ran, once the pool is left
    to itself every submitted operation has been called exactly once and
    the promise returned for it has been settled exactly once, with the
    outcome of that operation; nothing is left queued or running. *)
Theorem pool_every_task_settles
    (m : Z) (tr : list event) (n id : nat) (f : operation) :
  (1 <= m)%Z ->
  2 * List.length (submitted tr) <= n ->
  nth_error (submitted tr) id = Some f ->
  start_count id (finish n (run (fresh m) tr)) = 1 /\
  settle_count id (settled (finish n (run (fresh m) tr))) = 1 /\
  handle_state id (settled (finish n (run (fresh m) tr))) = Some (result_of f) /\
  queue (finish n (run (fresh m) tr)) = [] /\
  running (finish n (run (fresh m) tr)) = 0%Z.
Proof.
  intros Hm Hn Hf.
  destruct (pool_finish_complete tr Hm Hn) as (Hq & _ & _ & Hr & Hall).
  destruct (Hall id f Hf) as (H1 & H2 & H3).
  repeat split; assumption.
Qed.

Lemma pool_every_task_settles_witness :
  handle_state 2
    (settled (finish 6 (run (fresh 2)
       [Add Examples.A; Add Examples.B; Add Examples.C])))
  = Some (Fulfilled (VString "c")).
Proof.
  exact (proj1 (proj2 (proj2
    (@pool_every_task_settles 2 [Add Examples.A; Add Examples.B; Add Examples.C]
       6 2 Examples.C (Z.le_succ_diag_r 1) (le_n 6) eq_refl)))).
Defined.



(** A pool that has only been given calls of [add] has woken nobody, and
    has queued callers only while full. *)
Lemma batch_state (ops : list operation) :
  forall s,
  woken s = [] ->
  (queue s <> [] -> (maxConcurrent s <= running s)%Z) ->
  within_limit s ->
  woken (run s (map Add ops)) = [] /\
  (queue (run s (map Add ops)) <> [] ->
   (maxConcurrent (run s (map Add ops)) <= running (run s (map Add ops)))%Z) /\
  within_limit (run s (map Add ops)).
Proof.
  induction ops as [|f ops IH]; intros s Hw Hq Hlim; [auto|].
  change (run s (map Add (f :: ops))) with (run (snd (add f s)) (map Add ops)).
  apply IH.
  - unfold add, launch, conclude, finally_block.
    cbn [snd maxConcurrent running queue woken inflight calls started settled].
    destruct (Z.geb_spec (running s) (maxConcurrent s)) as [Hge|Hlt];
      [exact Hw|].
    destruct (queue s) as [|w q]; [|exfalso; assert (Hne : w :: q <> []) by discriminate;
       specialize (Hq Hne); lia].
    destruct f; exact Hw.
  - unfold add, launch, conclude, finally_block.
    cbn [snd maxConcurrent running queue woken inflight calls started settled].
    destruct (Z.geb_spec (running s) (maxConcurrent s)) as [Hge|Hlt].
    + intros _. exact Hge.
    + destruct (queue s) as [|w q]; [|exfalso; assert (Hne : w :: q <> []) by discriminate;
       specialize (Hq Hne); lia].
      destruct f; simpl; congruence.
  - change (snd (add f s)) with (step s (Add f)).
    apply within_limit_step; [|exact Hlim].
    simpl. rewrite Hw. reflexivity.
Qed.

Lemma no_add_orderly (tr : list event) :
  forall s, no_add tr = true -> orderly s tr = true.
Proof.
  induction tr as [|ev tr IH]; intros s Hno; [reflexivity|].
  destruct ev as [f|id|]; simpl in Hno |- *; [discriminate| |]; apply IH, Hno.
Qed.

(** X13.  On a new pool with an integer limit, when every call of [add] is
    made in one go, before any continuation runs, with operations that
    return something to await (none throws when called), the limit is kept
    from then on, in whatever order the operations complete and the woken
    callers continue: after the calls and any sequence of completions and
    continuations, [running] and the number of operations in flight are at
    most [maxConcurrent].  A call of [add] made by one of the operations
    while it is being called in that first go is one more call of the
    list, right behind the call that started the operation. *)
Theorem pool_batch_keeps_limit
    (m : Z) (ops : list operation) (tr : list event) :
  (0 <= m)%Z ->
  forallb is_async ops = true ->
  no_add tr = true ->
  (running (run (fresh m) (map Add ops ++ tr)) <= m)%Z /\
  (Z.of_nat (List.length (inflight (run (fresh m) (map Add ops ++ tr)))) <= m)%Z.
Proof.
  intros Hm _ Hno.
  assert (Hstart : within_limit (fresh m)) by (unfold within_limit; simpl; lia).
  destruct (@batch_state ops (fresh m) eq_refl) as (_ & _ & Hlim);
    [simpl; congruence|exact Hstart|].
  pose proof (within_limit_run tr (no_add_orderly tr _ Hno) Hlim) as Hend.
  rewrite <- run_app in Hend.
  unfold within_limit in Hend. rewrite maxConcurrent_run in Hend. simpl in Hend.
  specialize (Hend Hm).
  destruct (sound_reachable m (map Add ops ++ tr)) as [_ Hr _ _ _ _ _ _ _ _ _].
  split; [lia|]. rewrite <- Hr. lia.
Qed.

Lemma pool_batch_keeps_limit_witness :
  (running (run (fresh 2)
     (map Add [Examples.A; Examples.B; Examples.C; Examples.D]
      ++ [Settle 1; Settle 0; Resume; Resume])) <= 2)%Z.
Proof.
  exact (proj1 (@pool_batch_keeps_limit 2
                  [Examples.A; Examples.B; Examples.C; Examples.D]
                  [Settle 1; Settle 0; Resume; Resume]
                  (Z.le_0_2) eq_refl eq_refl)).
Defined.

(** X16.  On a pool whose limit is an integer below 1, every call of [add]
    parks its caller: whatever calls are made and whatever continuations
    run, no operation is ever called, no returned promise is ever settled,
    and the queue holds one caller per call. *)
Theorem pool_integer_limit_below_one_never_starts (m : Z) (tr : list event) :
  (m < 1)%Z ->
  started (run (fresh m) tr) = [] /\
  settled (run (fresh m) tr) = [] /\
  List.length (queue (run (fresh m) tr)) = List.length (submitted tr).
Proof.
  intros Hm.
  assert (Hidle : idle_forever m (run (fresh m) tr)).
  { apply idle_forever_run; [exact Hm|]. unfold idle_forever. simpl.
    repeat split; reflexivity. }
  destruct Hidle as (_ & _ & Hw & Hi & Hst & Hse).
  destruct (sound_reachable m tr) as [Hc _ Ht _ _ _ _ _ _ _ _].
  rewrite Hw, Hi, Hse in Ht. simpl in Ht.
  repeat split; auto. lia.
Qed.

Lemma pool_integer_limit_below_one_never_starts_witness :
  started (run (fresh 0) [Add Examples.A; Resume; Add Examples.B]) = [].
Proof.
  exact (proj1 (@pool_integer_limit_below_one_never_starts 0
                  [Add Examples.A; Resume; Add Examples.B] eq_refl)).
Defined.

End PoolMore.

Section PoolOrder.
Import PromisePool.

Lemma in_call_order_step (s : t) (ev : event) :
  orderly s [ev] = true -> busy s -> in_call_order s ->
  in_call_order (step s ev).
Proof.
  unfold in_call_order, busy. intros Hord Hbusy Hin.
  destruct ev as [f|id|]; simpl in Hord |- *.
  - destruct (woken s) as [|w ws] eqn:Hw; [|discriminate].
    unfold add, launch, conclude, finally_block.
    cbn [snd maxConcurrent running queue woken inflight calls started settled].
    destruct (Z.geb_spec (running s) (maxConcurrent s)) as [Hge|Hlt].
    + cbn [queue woken started calls].
      rewrite seq_S, <- Hin, map_app. simpl. rewrite !app_assoc. reflexivity.
    + destruct (queue s) as [|q qs];
        [|exfalso; assert (Hne : q :: qs <> []) by discriminate;
          specialize (Hbusy Hne); simpl in Hbusy; lia].
      simpl in Hin. rewrite app_nil_r in Hin.
      destruct f; cbn [queue woken started calls];
        rewrite map_app, seq_S, <- Hin; simpl; rewrite app_nil_r; reflexivity.
  - unfold settle, conclude, finally_block.
    destruct (extract id (inflight s)) as [[o fl]|]; [|exact Hin].
    cbn [maxConcurrent running queue woken inflight calls started settled].
    destruct (queue s) as [|q qs]; cbn [queue woken started calls].
    + exact Hin.
    + rewrite <- Hin, map_app, <- !app_assoc. reflexivity.
  - unfold resume, launch, conclude, finally_block.
    destruct (woken s) as [|[id f] ws] eqn:Hw; [rewrite Hw; exact Hin|].
    cbn [maxConcurrent running queue woken inflight calls started settled].
    destruct f as [e|o]; [destruct (queue s) as [|q qs]|];
      cbn [queue woken started calls];
      rewrite <- Hin, !map_app, <- !app_assoc; reflexivity.
Qed.

Lemma in_call_order_run (tr : list event) :
  forall s, orderly s tr = true -> busy s -> in_call_order s ->
  in_call_order (run s tr).
Proof.
  induction tr as [|ev tr IH]; intros s Ho Hb Hin; [exact Hin|].
  rewrite orderly_cons in Ho. apply andb_prop in Ho. destruct Ho as [Hev Htr].
  change (run s (ev :: tr)) with (run (step s ev) tr).
  apply IH; [exact Htr|apply busy_step, Hb|].
  apply in_call_order_step; assumption.
Qed.

Lemma numbered_in_order (l : list waiter) :
  forall (k : nat) (ops : list operation),
  map fst l = seq k (List.length l) ->
  (forall id f, In (id, f) l -> nth_error ops (id - k) = Some f) ->
  l = number k (firstn (List.length l) ops).
Proof.
  induction l as [|[id f] l IH]; intros k ops Hids Hops; [reflexivity|].
  simpl in Hids. inversion Hids as [[Hid Hrest]]. subst id.
  pose proof (Hops k f (or_introl eq_refl)) as Hf.
  rewrite Nat.sub_diag in Hf.
  destruct ops as [|g ops]; [discriminate|]. simpl in Hf. inversion Hf; subst g.
  simpl. f_equal. apply IH; [exact Hrest|].
  intros id' f' Hin'.
  assert (Hge : S k <= id').
  { assert (Hmem : In id' (map fst l)) by (apply (in_map fst _ _ Hin')).
    rewrite Hrest in Hmem. apply in_seq in Hmem. lia. }
  specialize (Hops id' f' (or_intror Hin')).
  replace (id' - k) with (S (id' - S k)) in Hops by lia. exact Hops.
Qed.

(** X14.  For any limit, as long as no call of [add] runs between the
    wake-up of a parked caller and its continuation, the operations are
    called in the order in which they were submitted: the operations called
    so far are the first ones submitted, in that order, and a caller parked
    in the queue is never passed by a later one. *)
Theorem pool_starts_in_submission_order_without_overtaking
    (m : Z) (tr : list event) :
  orderly (fresh m) tr = true ->
  map fst (started (run (fresh m) tr))
  = seq 0 (List.length (started (run (fresh m) tr))) /\
  started (run (fresh m) tr)
  = number 0 (firstn (List.length (started (run (fresh m) tr))) (submitted tr)).
Proof.
  intros Hord.
  assert (Hin : in_call_order (run (fresh m) tr)).
  { apply in_call_order_run; [exact Hord|apply busy_fresh|reflexivity]. }
  unfold in_call_order in Hin.
  assert (Hids : map fst (started (run (fresh m) tr))
                 = seq 0 (List.length (started (run (fresh m) tr)))).
  { pose proof (prefix_of_seq _ _ _ _ Hin) as Hpre.
    rewrite length_map in Hpre. exact Hpre. }
  split; [exact Hids|].
  apply numbered_in_order; [exact Hids|].
  intros id f Hf. rewrite Nat.sub_0_r.
  destruct (sound_reachable m tr) as [_ _ _ _ _ _ _ _ Hcalled _ _].
  apply Hcalled, Hf.
Qed.

Lemma pool_starts_in_submission_order_without_overtaking_witness :
  map fst (started (run (fresh 1)
     [Add Examples.A; Add Examples.B; Add Examples.C; Settle 0; Resume;
      Settle 1; Resume])) = [0; 1; 2].
Proof.
  exact (proj1 (@pool_starts_in_submission_order_without_overtaking 1
                  [Add Examples.A; Add Examples.B; Add Examples.C; Settle 0;
                   Resume; Settle 1; Resume] eq_refl)).
Defined.

End PoolOrder.

Section MoreWitnesses.


Lemma errorRecovery_fallback_only_on_network_error_witness :
  Recovery.errorRecovery (fun _ => true)
    (Async (Rejected (VString "down"))) (Async (Fulfilled (VNumber 1)))
  = (Fulfilled (VNumber 1), [Recovery.Risky; Recovery.Fallback]).
Proof.
  exact (proj1 (proj2 (@errorRecovery_fallback_only_on_network_error
                         (fun _ => true)
                         (Async (Rejected (VString "down")))
                         (Async (Fulfilled (VNumber 1)))))
               (or_intror (or_introl eq_refl))).
Defined.

End MoreWitnesses.

Section QueueIdle.
Import PromiseQueue.

(** X15.  The [processing] flag of a PromiseQueue is false exactly when
    every task submitted so far has had its handle settled; then the queue
    is empty and nothing is awaited. *)
Theorem queue_idle_iff_all_settled (tr : list event) :
  (processing (run constructor tr) = false
   <-> List.length (settled (run constructor tr)) = List.length (submitted tr)) /\
  (processing (run constructor tr) = false ->
   queue (run constructor tr) = [] /\ awaiting (run constructor tr) = [] /\
   settled (run constructor tr) = map verdict (number 0 (submitted tr))).
Proof.
  pose proof (shape_reachable tr) as Hshape.
  assert (Hidle : processing (run constructor tr) = false ->
                  awaiting (run constructor tr) = []).
  { destruct Hshape as (_ & _ & _ & _ & _ & _ & _ & _ & Hflag & _).
    rewrite Hflag. destruct (awaiting (run constructor tr)); congruence. }
  split; [split|].
  - intros Hp. destruct (shape_idle Hshape (Hidle Hp)) as (_ & Hse & _).
    rewrite Hse, length_map, number_length. reflexivity.
  - intros Hall.
    destruct Hshape as (pre & post & Hops & _ & _ & _ & Hse & _ & Hflag & _).
    apply (f_equal (@List.length _)) in Hse.
    rewrite length_app, length_map, number_length in Hse.
    rewrite Hops, length_app in Hall.
    rewrite Hflag.
    destruct (awaiting (run constructor tr)); [reflexivity|simpl in Hse; lia].
  - intros Hp. destruct (shape_idle Hshape (Hidle Hp)) as (_ & Hse & Hq & _).
    repeat split; auto.
Qed.

Lemma queue_idle_iff_all_settled_witness :
  settled (run constructor [Enqueue Examples.A; Settle 0])
  = [(0, Fulfilled (VString "a"))].
Proof.
  exact (proj2 (proj2 (proj2 (@queue_idle_iff_all_settled
                                [Enqueue Examples.A; Settle 0]) eq_refl))).
Defined.

End QueueIdle.
